(** * A shallow embedding of the chess rules engine

    The development follows [ChessEngine] (turn protocol, check detection,
    legal-move listing) and [Pawn.possibleMoves].  Boards are JavaScript
    objects used as maps from position keys such as [A1] to pieces: they are
    embedded as association lists in own-property order, because
    [Object.keys] enumerates string keys in insertion order and
    [kingPosition] returns the first match. *)

From Stdlib Require Import Ascii.
From stdpp Require Import gmap strings list.

Open Scope string_scope.
Open Scope list_scope.

(** ** Value types ([Types.ts]) *)

Inductive Column := CA | CB | CC | CD | CE | CF | CG | CH.
Inductive Row := R1 | R2 | R3 | R4 | R5 | R6 | R7 | R8.
Inductive Side := WHITE | BLACK.

Record Square := mkSquare { column : Column; row : Row }.

#[global] Instance Column_eq_dec : EqDecision Column.
Proof. solve_decision. Defined.
#[global] Instance Row_eq_dec : EqDecision Row.
Proof. solve_decision. Defined.
#[global] Instance Side_eq_dec : EqDecision Side.
Proof. solve_decision. Defined.
#[global] Instance Square_eq_dec : EqDecision Square.
Proof. solve_decision. Defined.

Definition columns : list Column := [CA; CB; CC; CD; CE; CF; CG; CH].
Definition rows : list Row := [R1; R2; R3; R4; R5; R6; R7; R8].

(** The one-character string a column is at run time. *)
Definition columnChar (c : Column) : ascii :=
  match c with
  | CA => "A" | CB => "B" | CC => "C" | CD => "D"
  | CE => "E" | CF => "F" | CG => "G" | CH => "H"
  end%char.

(** The decimal digit a row number prints as. *)
Definition rowDigit (r : Row) : ascii :=
  match r with
  | R1 => "1" | R2 => "2" | R3 => "3" | R4 => "4"
  | R5 => "5" | R6 => "6" | R7 => "7" | R8 => "8"
  end%char.

Definition rowNumber (r : Row) : Z :=
  match r with
  | R1 => 1 | R2 => 2 | R3 => 3 | R4 => 4
  | R5 => 5 | R6 => 6 | R7 => 7 | R8 => 8
  end%Z.

Definition columnOfChar (a : ascii) : option Column :=
  List.find (λ c, Ascii.eqb (columnChar c) a) columns.

(** [Number(key[1]) as Row]: the digit read back as a row. *)
Definition rowOfDigit (a : ascii) : option Row :=
  List.find (λ r, Ascii.eqb (rowDigit r) a) rows.

(** The template literal [`${square.column}${square.row}`]. *)
Definition squareKey (sq : Square) : string :=
  String (columnChar (column sq)) (String (rowDigit (row sq)) EmptyString).

(** [{ column: key[0], row: Number(key[1]) as Row }].  Every key of a board
    is made by [squareKey], on which this never fails
    ([keyToSquare_squareKey]). *)
Definition keyToSquare (key : string) : option Square :=
  match key with
  | String c0 (String c1 _) =>
      match columnOfChar c0, rowOfDigit c1 with
      | Some c, Some r => Some (mkSquare c r)
      | _, _ => None
      end
  | _ => None
  end.

(** ** Pieces ([pieces], [Player]) *)

Inductive PieceKind := PAWN | KNIGHT | BISHOP | ROOK | QUEEN | KING.

#[global] Instance PieceKind_eq_dec : EqDecision PieceKind.
Proof. solve_decision. Defined.

Record Piece := mkPiece { id : string; side : Side; kind : PieceKind }.

#[global] Instance Piece_eq_dec : EqDecision Piece.
Proof. solve_decision. Defined.

(** The [name] field each piece class sets; the engine compares it with
    ['King'] only. *)
Definition name (p : Piece) : string :=
  match kind p with
  | PAWN => "Pawn" | KNIGHT => "Knight" | BISHOP => "Bishop"
  | ROOK => "Rook" | QUEEN => "Queen" | KING => "King"
  end.

(** Modelled from the spec: [Piece.isOpponentOf], whose class is not among
    the sources; an opposing piece is one of the other side. *)
Definition isOpponentOf (p q : Piece) : bool := bool_decide (side p ≠ side q).

Record Player := mkPlayer { player_side : Side }.

(** ** Objects used as maps from position keys

    An object whose property names are position keys, in own-property
    order, with values in [V].  [squaresWithPiece] is one with pieces as
    values. *)

Definition KeyedObject (V : Type) : Type := list (Square * V).

(** [Object.keys(o)]. *)
Definition Object_keys {V} (o : KeyedObject V) : list string :=
  map (λ e, squareKey e.1) o.

(** [o[key]], an absent property being [None]. *)
Fixpoint getProp {V} (o : KeyedObject V) (key : string) : option V :=
  match o with
  | [] => None
  | (sq, v) :: o' => if String.eqb (squareKey sq) key then Some v else getProp o' key
  end.

(** [delete o[key]]. *)
Fixpoint deleteProp {V} (o : KeyedObject V) (key : string) : KeyedObject V :=
  match o with
  | [] => []
  | (sq, v) :: o' =>
      if String.eqb (squareKey sq) key then deleteProp o' key
      else (sq, v) :: deleteProp o' key
  end.

(** [o[squareKey at_] = v]: an existing property keeps its place in the
    enumeration order, a new one goes last. *)
Fixpoint setProp {V} (o : KeyedObject V) (at_ : Square) (v : V) : KeyedObject V :=
  match o with
  | [] => [(at_, v)]
  | (sq, w) :: o' =>
      if String.eqb (squareKey sq) (squareKey at_) then (sq, v) :: o'
      else (sq, w) :: setProp o' at_ v
  end.

Definition SquareWithPiece : Type := KeyedObject Piece.
Definition Chessboard : Type := SquareWithPiece.

(** Modelled from the spec: [Chessboard.onPositionPiece], the lookup
    [pieceAt(square)] of a class that is not among the sources. *)
Definition onPositionPiece (b : Chessboard) (sq : Square) : option Piece :=
  getProp b (squareKey sq).

(** Modelled from the spec: [Chessboard.movePiece], which relocates the
    piece on [from] to [to], overwrites what stood there and removes the
    [from] entry; an empty [from] is outside its precondition and leaves
    the board alone here. *)
Definition movePiece (b : Chessboard) (from to : Square) : Chessboard :=
  match onPositionPiece b from with
  | Some p => setProp (deleteProp b (squareKey from)) to p
  | None => b
  end.

(** ** Squares as objects

    A value of type [Square] at run time is an object: it has the
    properties [column] and [row], in the order its maker gave them, and
    may have others.  [squareOf] is what [.column] and [.row] read;
    [fieldOrder] is the own properties [JSON.stringify] prints, in their
    order, each other property given by the member text printed for it. *)

Inductive SquareField :=
  | ColumnField
  | RowField
  | OtherField (member : string).

Record SquareObject := mkSquareObject
  { squareOf : Square; fieldOrder : list SquareField }.

(** The object literal [{ column: c, row: r }]. *)
Definition squareLiteral (sq : Square) : SquareObject :=
  mkSquareObject sq [ColumnField; RowField].

(** The interface [PieceMovement]: each piece class lists its candidate
    destinations from a position on a board, an array of square objects. *)
Class PieceMovement :=
  PieceMovement_possibleMoves : Piece → Square → Chessboard → list SquareObject.

(** The candidate destinations by their column and row. *)
Definition possibleMoves `{PM : PieceMovement} (this : Piece) (position : Square)
    (b : Chessboard) : list Square :=
  squareOf <$> PieceMovement_possibleMoves this position b.

(** ** Equality by serialization

    [isKingChecked] compares a generated square object with the object
    [kingPosition] returns through [JSON.stringify]; [canMoveOnSquare]
    compares the fields [column] and [row]. *)

Definition dquote : string := String "034"%char EmptyString.

Definition char_string (a : ascii) : string := String a EmptyString.

(** The member [JSON.stringify] prints for one property of a square
    object: the key in quotes, a colon, and the value, a column as a
    string in quotes and a row as a number. *)
Definition JSON_member (sq : Square) (f : SquareField) : string :=
  match f with
  | ColumnField =>
      dquote +:+ "column" +:+ dquote +:+ ":"
        +:+ dquote +:+ char_string (columnChar (column sq)) +:+ dquote
  | RowField =>
      dquote +:+ "row" +:+ dquote +:+ ":" +:+ char_string (rowDigit (row sq))
  | OtherField member => member
  end.

(** [JSON.stringify(o)] for a square object: the members of its own
    properties in their order, between braces and separated by commas. *)
Definition JSON_stringify (o : SquareObject) : string :=
  "{" +:+ String.concat "," (JSON_member (squareOf o) <$> fieldOrder o) +:+ "}".

(** [JSON.stringify(undefined)] is [undefined], not a string. *)
Definition JSON_stringify_opt (v : option SquareObject) : option string :=
  JSON_stringify <$> v.

(** [s == v] for a string [s] and a [v] that is a string or [undefined]. *)
Definition looseEq (s : string) (v : option string) : bool :=
  match v with
  | Some s' => String.eqb s s'
  | None => false
  end.

(** ** Errors, events and the engine's state *)

Inductive Error :=
  | IllegalMove          (* no piece on the source square *)
  | OutOfTurn            (* the mover's side is not the side to move *)
  | WrongOwner           (* the piece belongs to the other player *)
  | IllegalDestination   (* the destination is not a candidate of the piece *)
  | TypeError.           (* a property read on [undefined] *)

Definition message (e : Error) : string :=
  match e with
  | IllegalMove => "There is no piece on this square."
  | OutOfTurn => "It's not Your turn."
  | WrongOwner => "Player can not move other players pieces."
  | IllegalDestination => "Piece can not move to given square."
  | TypeError => "Cannot read properties of undefined"
  end.

(** The four failures of [move] throw four different messages. *)
Definition sameMessage (e1 e2 : Error) : bool := String.eqb (message e1) (message e2).

Record PieceWasMoved := mkPieceWasMoved
  { moved_piece : Piece; moved_from : Square; moved_to : Square }.

Record PieceWasCaptured := mkPieceWasCaptured
  { captured_piece : Piece; captured_onSquare : Square }.

#[global] Instance PieceWasMoved_eq_dec : EqDecision PieceWasMoved.
Proof. solve_decision. Defined.
#[global] Instance PieceWasCaptured_eq_dec : EqDecision PieceWasCaptured.
Proof. solve_decision. Defined.

(** The [eventType] tag of an element of [(PieceWasMoved | PieceWasCaptured)[]]. *)
Inductive Event :=
  | Moved (e : PieceWasMoved)
  | Captured (e : PieceWasCaptured).

#[global] Instance Event_eq_dec : EqDecision Event.
Proof. solve_decision. Defined.

(** Whether an outcome is a return, not a throw. *)
Definition is_inr {A B} (r : A + B) : bool :=
  match r with inr _ => true | inl _ => false end.

Record Engine := mkEngine { board : Chessboard; currentSide : Side }.

(** A new engine: [currentSide] starts as [Side.WHITE]. *)
Definition newEngine (b : Chessboard) : Engine := mkEngine b WHITE.

(** Methods run on the engine's fields and either return or throw; the
    fields reached at that point are part of the outcome. *)
Definition M (A : Type) : Type := Engine → (Error + A) * Engine.

#[global] Instance M_ret : MRet M := λ A a this, (inr a, this).
#[global] Instance M_bind : MBind M := λ A B f m this,
  match m this with
  | (inl e, this') => (inl e, this')
  | (inr a, this') => f a this'
  end.

Definition throw {A} (e : Error) : M A := λ this, (inl e, this).
Definition get : M Engine := λ this, (inr this, this).
Definition put (this' : Engine) : M unit := λ _, (inr tt, this').

(** A method that only reads the fields. *)
Definition reading {A} (f : Engine → Error + A) : M A := λ this, (f this, this).

(** [xs.filter(f)] with a callback that may throw: the first throw ends
    the call. *)
Fixpoint filterE {A} (f : A → Error + bool) (xs : list A) : Error + list A :=
  match xs with
  | [] => inr []
  | x :: xs' =>
      match f x with
      | inl e => inl e
      | inr keep =>
          match filterE f xs' with
          | inl e => inl e
          | inr ys => inr (if keep then x :: ys else ys)
          end
      end
  end.

(** ** [ChessEngine] *)

Section ChessEngine.
Context `{PM : PieceMovement}.

(** [_.cloneDeep(chessboard)] on values: a copy has the same occupancy in
    the same property order.  Which objects a copy shares with its
    original is the subject of the store model further down. *)
Definition cloneDeep (chessboard : Chessboard) : Chessboard := chessboard.

Definition changeTurn (s : Side) : Side :=
  if bool_decide (s = WHITE) then BLACK else WHITE.

Definition canMoveOnSquare (squareFrom squareTo : Square) : M bool :=
  this ← get;
  let piecePossibleMoves :=
    (λ p, possibleMoves p squareFrom (board this)) <$> onPositionPiece (board this) squareFrom in
  mret (default false
    (existsb (λ possibleMove,
        bool_decide (column possibleMove = column squareTo)
        && bool_decide (row possibleMove = row squareTo)) <$> piecePossibleMoves)).

Definition pieceWasCaptured (squareTo : Square) (chosenPiece : Piece)
    : M (option PieceWasCaptured) :=
  this ← get;
  let pieceOnSquare := onPositionPiece (board this) squareTo in
  mret (match pieceOnSquare with
        | Some p => if isOpponentOf p chosenPiece
                    then Some (mkPieceWasCaptured p squareTo) else None
        | None => None
        end).

Definition onPieceWasMoved (event : PieceWasMoved) : M unit :=
  this ← get;
  put (mkEngine (movePiece (board this) (moved_from event) (moved_to event))
                (currentSide this));;
  this ← get;
  put (mkEngine (board this) (changeTurn (side (moved_piece event)))).

Definition move (byPlayer : Player) (squareFrom squareTo : Square) : M (list Event) :=
  this ← get;
  match onPositionPiece (board this) squareFrom with
  | None => throw IllegalMove
  | Some chosenPiece =>
      if bool_decide (player_side byPlayer ≠ currentSide this) then throw OutOfTurn
      else if bool_decide (player_side byPlayer ≠ side chosenPiece) then throw WrongOwner
      else
        can ← canMoveOnSquare squareFrom squareTo;
        if negb can then throw IllegalDestination
        else
          let pieceWasMoved := mkPieceWasMoved chosenPiece squareFrom squareTo in
          pieceWasCaptured ← pieceWasCaptured squareTo chosenPiece;
          onPieceWasMoved pieceWasMoved;;
          mret (match pieceWasCaptured with
                | Some captured => [Moved pieceWasMoved; Captured captured]
                | None => [Moved pieceWasMoved]
                end)
  end.

(** The board after the proposed move.  [None] stands for the object the
    code builds when [squareFrom] is empty: its property [positionTo]
    holds [undefined]. *)
Definition returnWirtualProposedBoardAfterMove
    (chessboard : Chessboard) (squareFrom squareTo : Square) : option Chessboard :=
  let wirtualPorposedChessboard := cloneDeep chessboard in
  let movedPiece := onPositionPiece chessboard squareFrom in
  let positionFrom := squareKey squareFrom in
  let afterDelete := deleteProp wirtualPorposedChessboard positionFrom in
  (λ p, setProp afterDelete squareTo p) <$> movedPiece.

Definition kingPosition (kingSide : Side) (chessboard : Chessboard) : option Square :=
  let squaresWithPieces := chessboard in
  let allyKingPositionKey :=
    List.find (λ key,
      match getProp squaresWithPieces key with
      | Some p =>
          let isKingName := String.eqb (name p) "King" in
          let isPlayerSide := bool_decide (side p = kingSide) in
          isKingName && isPlayerSide
      | None => false
      end) (Object_keys squaresWithPieces) in
  match allyKingPositionKey with
  | None => None
  | Some key => keyToSquare key
  end.

Definition isKingChecked (chessboard : Chessboard) (kingSide : Side) : bool :=
  let squaresWithPieces := chessboard in
  let kingPosition := kingPosition kingSide chessboard in
  fold_left (λ isCheckedSquareFlag key,
    match getProp squaresWithPieces key, keyToSquare key with
    | Some mappedPiece, Some mappedPiecePosition =>
        let isEnemySide := bool_decide (side mappedPiece ≠ kingSide) in
        if isEnemySide then
          let possibleMappedPieceMoves :=
            PieceMovement_possibleMoves mappedPiece mappedPiecePosition chessboard in
          let isKingPositionOnPossibleEnemyPieceMoves :=
            existsb (λ checkedPosition,
              looseEq (JSON_stringify checkedPosition)
                (JSON_stringify_opt (squareLiteral <$> kingPosition)))
              possibleMappedPieceMoves in
          if isKingPositionOnPossibleEnemyPieceMoves
          then isKingPositionOnPossibleEnemyPieceMoves
          else isCheckedSquareFlag
        else isCheckedSquareFlag
    | _, _ => isCheckedSquareFlag
    end) (Object_keys squaresWithPieces) false.

(** On a board whose property [positionTo] holds [undefined] the scan of
    [isKingChecked] reads [undefined.side]. *)
Definition willBeKingChecked (this : Engine) (squareFrom squareTo : Square) : Error + bool :=
  let chessboard := board this in
  match returnWirtualProposedBoardAfterMove chessboard squareFrom squareTo with
  | Some wirtualPorposedChessboard =>
      inr (isKingChecked wirtualPorposedChessboard (currentSide this))
  | None => inl TypeError
  end.

(** The squares of the array the listing returns are given by their
    column and row, which is all [willBeKingChecked] reads of a candidate. *)
Definition returnPlayerMovesWithoutThoseThatCauseHisKingToCheck
    (position : Square) : M (list Square) :=
  reading (λ this,
    let initialPossibleMoves :=
      default [] ((λ p, possibleMoves p position (board this))
                    <$> onPositionPiece (board this) position) in
    let filteringFunction := λ onePossibleMove,
      match willBeKingChecked this position onePossibleMove with
      | inl e => inl e
      | inr checked => inr (negb checked)
      end in
    filterE filteringFunction initialPossibleMoves).

Definition ChessEngine_possibleMoves (position : Square) : M (list Square) :=
  returnPlayerMovesWithoutThoseThatCauseHisKingToCheck position.

End ChessEngine.

(** ** Notions used to state the properties *)

Section Notions.
Context `{PM : PieceMovement}.

(** Whether a piece is the king [kingPosition] looks for. *)
Definition isKingOf (kingSide : Side) (p : Piece) : bool :=
  String.eqb (name p) "King" && bool_decide (side p = kingSide).

(** Whether the piece under [key] is an enemy of [kingSide] one of whose
    destinations serializes as the square [kingPosition] found. *)
Definition attacksKing (b : Chessboard) (kingSide : Side) (key : string) : bool :=
  match getProp b key, keyToSquare key with
  | Some mappedPiece, Some mappedPiecePosition =>
      bool_decide (side mappedPiece ≠ kingSide)
      && existsb (λ checkedPosition,
           looseEq (JSON_stringify checkedPosition)
             (JSON_stringify_opt (squareLiteral <$> kingPosition kingSide b)))
           (PieceMovement_possibleMoves mappedPiece mappedPiecePosition b)
  | _, _ => false
  end.

(** The event list of a move of [chosenPiece] on a board [b]. *)
Definition eventsOfMove (b : Chessboard) (chosenPiece : Piece)
    (squareFrom squareTo : Square) : list Event :=
  let pieceWasMoved := mkPieceWasMoved chosenPiece squareFrom squareTo in
  match onPositionPiece b squareTo with
  | Some q =>
      if isOpponentOf q chosenPiece
      then [Moved pieceWasMoved; Captured (mkPieceWasCaptured q squareTo)]
      else [Moved pieceWasMoved]
  | None => [Moved pieceWasMoved]
  end.

(** Following the specification's words: the failure of
    [move(byPlayer, from, to)], the first applicable check first; [None]
    when no check fails. *)
Definition expectedFailure (this : Engine) (byPlayer : Player)
    (squareFrom squareTo : Square) : option Error :=
  match onPositionPiece (board this) squareFrom with
  | None => Some IllegalMove
  | Some piece =>
      if bool_decide (player_side byPlayer ≠ currentSide this) then Some OutOfTurn
      else if bool_decide (side piece ≠ player_side byPlayer) then Some WrongOwner
      else if bool_decide (squareTo ∉ possibleMoves piece squareFrom (board this))
      then Some IllegalDestination
      else None
  end.

(** The candidates that survive the filter of the listing. *)
Definition survivors (this : Engine) (position : Square) (piece : Piece)
    : list Square :=
  List.filter
    (λ squareTo, negb (isKingChecked
                         (movePiece (cloneDeep (board this)) position squareTo)
                         (currentSide this)))
    (possibleMoves piece position (board this)).

End Notions.

(** ** [Pawn] *)

(** [xs.concat(a1, ..., an)] for array arguments. *)
Definition Array_concat {A} (xs : list A) (args : list (list A)) : list A :=
  fold_left (λ acc a, acc ++ a) args xs.

(** The three sub-rules [Pawn.possibleMoves] calls; their bodies are not
    among the sources. *)
Class PawnRules := {
  goAhead : Piece → Square → Chessboard → list Square;
  goDoubleAhead : Piece → Square → Chessboard → list Square;
  goDiagonalAhead : Piece → Square → Chessboard → list Square
}.

Definition Pawn_possibleMoves `{PawnRules} (this : Piece) (position : Square)
    (board : Chessboard) : list Square :=
  let movesToGo := [] in
  let movesToGo :=
    Array_concat movesToGo
      [goAhead this position board;
       goDoubleAhead this position board;
       goDiagonalAhead this position board] in
  movesToGo.

(** ** Move generation of the six kinds, after the specification

    The piece classes other than [Pawn.possibleMoves] are not among the
    sources.  The definitions of this part follow section 4.1 of the
    specification; they instantiate [PieceMovement] on concrete boards. *)

Definition columnIndex (c : Column) : Z :=
  match c with
  | CA => 1 | CB => 2 | CC => 3 | CD => 4
  | CE => 5 | CF => 6 | CG => 7 | CH => 8
  end%Z.

Definition columnOfIndex (z : Z) : option Column :=
  List.find (λ c, bool_decide (columnIndex c = z)) columns.

Definition rowOfNumber (z : Z) : option Row :=
  List.find (λ r, bool_decide (rowNumber r = z)) rows.

(** The square [dc] columns and [dr] rows away, when it is on the board. *)
Definition offsetSquare (sq : Square) (dc dr : Z) : option Square :=
  match columnOfIndex (columnIndex (column sq) + dc),
        rowOfNumber (rowNumber (row sq) + dr) with
  | Some c, Some r => Some (mkSquare c r)
  | _, _ => None
  end.

(** Modelled from the spec: a destination is valid when it is empty or
    holds an opposing piece. *)
Definition emptyOrOpponent (this : Piece) (b : Chessboard) (sq : Square) : bool :=
  match onPositionPiece b sq with
  | None => true
  | Some q => isOpponentOf q this
  end.

(** Modelled from the spec: fixed-offset pieces keep the offsets that are
    in bounds and empty or held by an opposing piece. *)
Definition fixedOffsetMoves (offsets : list (Z * Z)) (this : Piece)
    (position : Square) (b : Chessboard) : list Square :=
  List.filter (emptyOrOpponent this b)
    (omap (λ d, offsetSquare position d.1 d.2) offsets).

(** Modelled from the spec: a sliding piece walks one direction a square at
    a time, stops at the edge and at the first occupied square, and keeps
    that square only when it holds an opposing piece. *)
Fixpoint slide (steps : nat) (this : Piece) (b : Chessboard) (sq : Square)
    (dc dr : Z) : list Square :=
  match steps with
  | O => []
  | S steps' =>
      match offsetSquare sq dc dr with
      | None => []
      | Some next =>
          match onPositionPiece b next with
          | None => next :: slide steps' this b next dc dr
          | Some q => if isOpponentOf q this then [next] else []
          end
      end
  end.

Definition slidingMoves (directions : list (Z * Z)) (this : Piece)
    (position : Square) (b : Chessboard) : list Square :=
  flat_map (λ d, slide 7 this b position d.1 d.2) directions.

Definition rookDirections : list (Z * Z) := [(0, 1); (1, 0); (0, -1); (-1, 0)]%Z.
Definition bishopDirections : list (Z * Z) := [(1, 1); (1, -1); (-1, -1); (-1, 1)]%Z.
Definition kingOffsets : list (Z * Z) := rookDirections ++ bishopDirections.
Definition knightOffsets : list (Z * Z) :=
  [(1, 2); (2, 1); (2, -1); (1, -2); (-1, -2); (-2, -1); (-2, 1); (-1, 2)]%Z.

(** Modelled from the spec: the pawn's direction is determined by its
    side; white pawns start on row 2 and advance towards row 8, black
    pawns start on row 7 and advance towards row 1. *)
Definition pawnDirection (s : Side) : Z := match s with WHITE => 1 | BLACK => -1 end%Z.
Definition pawnStartRow (s : Side) : Row := match s with WHITE => R2 | BLACK => R7 end.

Definition isEmptySquare (b : Chessboard) (sq : Square) : bool :=
  bool_decide (onPositionPiece b sq = None).

(** Modelled from the spec: the single step, onto an empty square. *)
Definition spec_goAhead (this : Piece) (position : Square) (b : Chessboard) : list Square :=
  List.filter (isEmptySquare b)
    (option_list (offsetSquare position 0 (pawnDirection (side this)))).

(** Modelled from the spec: the double step, from the starting row only and
    through an empty intermediate square onto an empty square. *)
Definition spec_goDoubleAhead (this : Piece) (position : Square) (b : Chessboard)
    : list Square :=
  if bool_decide (row position = pawnStartRow (side this)) then
    match offsetSquare position 0 (pawnDirection (side this)),
          offsetSquare position 0 (2 * pawnDirection (side this)) with
    | Some mid, Some dest =>
        if isEmptySquare b mid && isEmptySquare b dest then [dest] else []
    | _, _ => []
    end
  else [].

(** Modelled from the spec: the diagonal step, onto a square held by an
    opposing piece only. *)
Definition spec_goDiagonalAhead (this : Piece) (position : Square) (b : Chessboard)
    : list Square :=
  List.filter (λ sq, match onPositionPiece b sq with
                     | Some q => isOpponentOf q this
                     | None => false
                     end)
    (omap (λ dc, offsetSquare position dc (pawnDirection (side this))) [-1; 1]%Z).

#[local] Instance specPawnRules : PawnRules :=
  {| goAhead := spec_goAhead;
     goDoubleAhead := spec_goDoubleAhead;
     goDiagonalAhead := spec_goDiagonalAhead |}.

(** The dispatch on the piece's class. *)
Definition specSquares (this : Piece) (position : Square) (b : Chessboard)
    : list Square :=
  match kind this with
  | PAWN => Pawn_possibleMoves this position b
  | KNIGHT => fixedOffsetMoves knightOffsets this position b
  | BISHOP => slidingMoves bishopDirections this position b
  | ROOK => slidingMoves rookDirections this position b
  | QUEEN => slidingMoves (rookDirections ++ bishopDirections) this position b
  | KING => fixedOffsetMoves kingOffsets this position b
  end.

(** Generators that build each destination as [{ column, row }]. *)
Definition specPossibleMoves : PieceMovement := λ this position b,
  squareLiteral <$> specSquares this position b.

(** Generators with the same destinations, each built as [{ row, column }]. *)
Definition rowFirstPossibleMoves : PieceMovement := λ this position b,
  (λ sq, mkSquareObject sq [RowField; ColumnField]) <$> specSquares this position b.


(** ** A position to evaluate the engine on

    White: king E1, knight E2, rook D4, queen H8.  Black: king A8, rook E8,
    pawn D7.  The knight shields its king from the rook on E8, and that
    rook shields its own king from the queen. *)

Definition whiteKing : Piece := mkPiece "K1" WHITE KING.
Definition whiteKnight : Piece := mkPiece "N1" WHITE KNIGHT.
Definition whiteRook : Piece := mkPiece "R1" WHITE ROOK.
Definition whiteQueen : Piece := mkPiece "Q1" WHITE QUEEN.
Definition blackKing : Piece := mkPiece "K2" BLACK KING.
Definition blackRook : Piece := mkPiece "R2" BLACK ROOK.
Definition blackPawn : Piece := mkPiece "P2" BLACK PAWN.

Definition demoBoard : Chessboard :=
  [ (mkSquare CE R1, whiteKing);
    (mkSquare CE R2, whiteKnight);
    (mkSquare CD R4, whiteRook);
    (mkSquare CH R8, whiteQueen);
    (mkSquare CA R8, blackKing);
    (mkSquare CE R8, blackRook);
    (mkSquare CD R7, blackPawn) ].

Definition demoEngine : Engine := newEngine demoBoard.

Definition A7 : Square := mkSquare CA R7.
Definition C3 : Square := mkSquare CC R3.
Definition D4 : Square := mkSquare CD R4.
Definition D5 : Square := mkSquare CD R5.
Definition D6 : Square := mkSquare CD R6.
Definition D7 : Square := mkSquare CD R7.
Definition E1 : Square := mkSquare CE R1.
Definition E2 : Square := mkSquare CE R2.
Definition E5 : Square := mkSquare CE R5.
Definition E8 : Square := mkSquare CE R8.

(** The position after the knight has left E2 for C3: nothing stands
    between the rook on E8 and the king on E1. *)
Definition checkBoard : Chessboard :=
  [ (mkSquare CE R1, whiteKing);
    (mkSquare CD R4, whiteRook);
    (mkSquare CH R8, whiteQueen);
    (mkSquare CA R8, blackKing);
    (mkSquare CE R8, blackRook);
    (mkSquare CD R7, blackPawn);
    (mkSquare CC R3, whiteKnight) ].

(** The same position without the white king. *)
Definition kinglessBoard : Chessboard := deleteProp demoBoard (squareKey E1).

(** ** The object store

    Pieces and boards are objects; a [squaresWithPiece] property holds a
    reference to a piece object, or [undefined].  The store model follows
    which objects the board of the legality simulation shares with the live
    board. *)

Definition loc : Type := nat.

(** A [ChessboardObj] is a chessboard together with its [squaresWithPiece]
    object: [_.cloneDeep] copies the two as one. *)
Inductive Obj :=
  | PieceObj (p : Piece)
  | ChessboardObj (squaresWithPiece : KeyedObject (option loc)).

Definition alloc (σ : gmap loc Obj) (o : Obj) : gmap loc Obj * loc :=
  let l := fresh (dom σ) in (<[l := o]> σ, l).

(** The copy of one property value.  [seen] records the objects already
    copied, so that a piece reachable twice is copied once. *)
Definition cloneValue (σ : gmap loc Obj) (seen : gmap loc loc) (v : option loc)
    : gmap loc Obj * gmap loc loc * option loc :=
  match v with
  | None => (σ, seen, None)
  | Some l =>
      match seen !! l with
      | Some l' => (σ, seen, Some l')
      | None =>
          match σ !! l with
          | Some (PieceObj p) =>
              let '(σ', l') := alloc σ (PieceObj p) in
              (σ', <[l := l']> seen, Some l')
          | _ => (σ, seen, Some l)
          end
      end
  end.

Fixpoint cloneProps (σ : gmap loc Obj) (seen : gmap loc loc)
    (props : KeyedObject (option loc))
    : gmap loc Obj * gmap loc loc * KeyedObject (option loc) :=
  match props with
  | [] => (σ, seen, [])
  | (sq, v) :: props' =>
      let '(σ1, seen1, v') := cloneValue σ seen v in
      let '(σ2, seen2, rest) := cloneProps σ1 seen1 props' in
      (σ2, seen2, (sq, v') :: rest)
  end.

(** [_.cloneDeep(chessboard)]: a new board object over new piece objects. *)
Definition cloneDeepS (σ : gmap loc Obj) (chessboard : loc) : gmap loc Obj * loc :=
  match σ !! chessboard with
  | Some (ChessboardObj props) =>
      let '(σ1, _, props') := cloneProps σ ∅ props in
      alloc σ1 (ChessboardObj props')
  | _ => (σ, chessboard)
  end.

Definition squaresWithPieceS (σ : gmap loc Obj) (chessboard : loc)
    : KeyedObject (option loc) :=
  match σ !! chessboard with
  | Some (ChessboardObj props) => props
  | _ => []
  end.

(** [chessboard.onPositionPiece(square)] as a reference. *)
Definition onPositionPieceS (σ : gmap loc Obj) (chessboard : loc) (sq : Square)
    : option loc :=
  mjoin (getProp (squaresWithPieceS σ chessboard) (squareKey sq)).

(** An assignment to the properties of the board object at [chessboard]. *)
Definition updateProps (σ : gmap loc Obj) (chessboard : loc)
    (f : KeyedObject (option loc) → KeyedObject (option loc)) : gmap loc Obj :=
  match σ !! chessboard with
  | Some (ChessboardObj props) => <[chessboard := ChessboardObj (f props)]> σ
  | _ => σ
  end.

Definition returnWirtualProposedBoardAfterMoveS (σ : gmap loc Obj)
    (chessboard : loc) (squareFrom squareTo : Square) : gmap loc Obj * loc :=
  let '(σ1, wirtualPorposedChessboard) := cloneDeepS σ chessboard in
  let movedPiece := onPositionPieceS σ1 chessboard squareFrom in
  let positionFrom := squareKey squareFrom in
  let σ2 := updateProps σ1 wirtualPorposedChessboard (λ o, deleteProp o positionFrom) in
  let σ3 := updateProps σ2 wirtualPorposedChessboard (λ o, setProp o squareTo movedPiece) in
  (σ3, wirtualPorposedChessboard).

(** What a reader of the board sees: the piece values behind the
    references.  [None] when a property holds [undefined] or does not lead
    to a piece, on which a read of [side] or [name] throws. *)
Definition derefPiece (σ : gmap loc Obj) (v : option loc) : option Piece :=
  l ← v; match σ !! l with Some (PieceObj p) => Some p | _ => None end.

Fixpoint viewProps (σ : gmap loc Obj) (props : KeyedObject (option loc))
    : option Chessboard :=
  match props with
  | [] => Some []
  | (sq, v) :: props' =>
      p ← derefPiece σ v; rest ← viewProps σ props'; Some ((sq, p) :: rest)
  end.

Definition viewBoard (σ : gmap loc Obj) (chessboard : loc) : option Chessboard :=
  match σ !! chessboard with
  | Some (ChessboardObj props) => viewProps σ props
  | _ => None
  end.

(** The engine over the store: [board] is a reference. *)
Record EngineS := mkEngineS { boardS : loc; currentSideS : Side }.

Section ChessEngineStore.
Context `{PM : PieceMovement}.

Definition willBeKingCheckedS (σ : gmap loc Obj) (this : EngineS)
    (squareFrom squareTo : Square) : gmap loc Obj * (Error + bool) :=
  let chessboard := boardS this in
  let '(σ', wirtualPorposedChessboard) :=
    returnWirtualProposedBoardAfterMoveS σ chessboard squareFrom squareTo in
  match viewBoard σ' wirtualPorposedChessboard with
  | Some wirtual => (σ', inr (isKingChecked wirtual (currentSideS this)))
  | None => (σ', inl TypeError)
  end.

(** [initialPossibleMoves.filter(filteringFunction)], one simulation per
    candidate, each on a store that holds the boards built before it. *)
Fixpoint filterCandidatesS (σ : gmap loc Obj) (this : EngineS) (position : Square)
    (candidates : list Square) : gmap loc Obj * (Error + list Square) :=
  match candidates with
  | [] => (σ, inr [])
  | onePossibleMove :: rest =>
      match willBeKingCheckedS σ this position onePossibleMove with
      | (σ1, inl e) => (σ1, inl e)
      | (σ1, inr checked) =>
          match filterCandidatesS σ1 this position rest with
          | (σ2, inl e) => (σ2, inl e)
          | (σ2, inr kept) =>
              (σ2, inr (if negb checked then onePossibleMove :: kept else kept))
          end
      end
  end.

Definition possibleMovesS (σ : gmap loc Obj) (this : EngineS) (position : Square)
    : gmap loc Obj * (Error + list Square) :=
  match viewBoard σ (boardS this) with
  | Some live =>
      let initialPossibleMoves :=
        default [] ((λ p, possibleMoves p position live)
                      <$> onPositionPiece live position) in
      filterCandidatesS σ this position initialPossibleMoves
  | None => (σ, inl TypeError)
  end.

End ChessEngineStore.

(** What holds of the objects copied so far: they are pieces, copied to
    objects that did not exist in [σ0], the store of before the copy. *)
Definition copied (σ0 σ : gmap loc Obj) (seen : gmap loc loc) : Prop :=
  σ0 ⊆ σ ∧
  ∀ l l', seen !! l = Some l' →
    σ0 !! l' = None ∧
    ∃ p, σ !! l = Some (PieceObj p) ∧ σ !! l' = Some (PieceObj p).

(** The assignment [piece.side = s] to the object a reference leads to. *)
Definition assignSide (σ : gmap loc Obj) (v : option loc) (s : Side) : gmap loc Obj :=
  match v with
  | Some l =>
      match σ !! l with
      | Some (PieceObj p) => <[l := PieceObj (mkPiece (id p) s (kind p))]> σ
      | _ => σ
      end
  | None => σ
  end.

(** The position [demoBoard] as objects: the board at 0 and its pieces at
    1 to 7. *)
Definition demoBoardLoc : loc := 0.

Definition demoStore : gmap loc Obj :=
  list_to_map
    [ (0, ChessboardObj
            [ (mkSquare CE R1, Some 1); (mkSquare CE R2, Some 2);
              (mkSquare CD R4, Some 3); (mkSquare CH R8, Some 4);
              (mkSquare CA R8, Some 5); (mkSquare CE R8, Some 6);
              (mkSquare CD R7, Some 7) ]);
      (1, PieceObj whiteKing); (2, PieceObj whiteKnight);
      (3, PieceObj whiteRook); (4, PieceObj whiteQueen);
      (5, PieceObj blackKing); (6, PieceObj blackRook);
      (7, PieceObj blackPawn) ].

Definition demoEngineS : EngineS := mkEngineS demoBoardLoc WHITE.

(** ** Runs of calls, and the king of a side *)

(** One call [move(byPlayer, squareFrom, squareTo)]. *)
Definition Call : Type := Player * Square * Square.

(** The turns from [s] on: [s], the other side, [s] again, and so on. *)
Fixpoint turns (s : Side) (n : nat) : list Side :=
  match n with
  | O => []
  | S n' => s :: turns (changeTurn s) n'
  end.

(** The only king of [kingSide] on the board stands on [k]. *)
Definition onlyKingAt (kingSide : Side) (b : Chessboard) (k : Square) : Prop :=
  (∃ q, onPositionPiece b k = Some q ∧ isKingOf kingSide q = true) ∧
  ∀ sq q, onPositionPiece b sq = Some q → isKingOf kingSide q = true → sq = k.

Section Runs.
Context `{PM : PieceMovement}.

(** The calls one after the other on one engine, a caller catching what
    is thrown: the outcomes in call order and the engine left at the end. *)
Fixpoint moveAll (calls : list Call) (this : Engine)
    : list (Error + list Event) * Engine :=
  match calls with
  | [] => ([], this)
  | (byPlayer, squareFrom, squareTo) :: rest =>
      let '(outcome, this') := move byPlayer squareFrom squareTo this in
      let '(outcomes, final) := moveAll rest this' in
      (outcome :: outcomes, final)
  end.

(** The sides of the players whose call returned, in call order. *)
Fixpoint successfulMovers (calls : list Call) (this : Engine) : list Side :=
  match calls with
  | [] => []
  | (byPlayer, squareFrom, squareTo) :: rest =>
      let '(outcome, this') := move byPlayer squareFrom squareTo this in
      if is_inr outcome
      then player_side byPlayer :: successfulMovers rest this'
      else successfulMovers rest this'
  end.

End Runs.

(** A position with two white kings, the one on D4 entered first. *)
Definition twoKingsBoard : Chessboard :=
  [ (mkSquare CD R4, mkPiece "K3" WHITE KING);
    (mkSquare CE R1, whiteKing);
    (mkSquare CA R8, blackKing) ].

(** * Properties *)

#[global] Arguments JSON_stringify : simpl never.
#[global] Arguments squareKey : simpl never.
#[global] Arguments keyToSquare : simpl never.
#[global] Arguments alloc : simpl never.
#[global] Arguments derefPiece : simpl never.

(** ** Position keys and serialization *)

Lemma keyToSquare_squareKey (sq : Square) : keyToSquare (squareKey sq) = Some sq.
Proof. by destruct sq as [[] []]. Qed.

Lemma squareKey_inj (a b : Square) : squareKey a = squareKey b → a = b.
Proof.
  intros E. apply (f_equal keyToSquare) in E.
  rewrite !keyToSquare_squareKey in E. congruence.
Qed.

Lemma squareKey_eqb (a b : Square) :
  String.eqb (squareKey a) (squareKey b) = bool_decide (a = b).
Proof.
  case_bool_decide as E.
  - subst. apply String.eqb_refl.
  - apply String.eqb_neq. intros K. by apply E, squareKey_inj.
Qed.

Lemma JSON_stringify_literal_inj (a b : Square) :
  JSON_stringify (squareLiteral a) = JSON_stringify (squareLiteral b) → a = b.
Proof. destruct a as [[] []], b as [[] []]; intros E; by vm_compute in E. Qed.


Lemma message_inj (e1 e2 : Error) : sameMessage e1 e2 = true → e1 = e2.
Proof. by destruct e1, e2. Qed.

(** ** Properties of an object *)

Section KeyedObject.
Context {V : Type}.
Implicit Types (o : KeyedObject V) (sq : Square) (v : V).

Lemma getProp_keys o sq v :
  getProp o (squareKey sq) = Some v → squareKey sq ∈ Object_keys o.
Proof.
  induction o as [|[sq' w] o IH]; cbn; [done|].
  rewrite squareKey_eqb. case_bool_decide as E.
  - subst. intros _. apply list_elem_of_here.
  - intros H. apply list_elem_of_further. by apply IH.
Qed.

Lemma keys_squareKey o key :
  key ∈ Object_keys o → ∃ sq, key = squareKey sq ∧ is_Some (getProp o key).
Proof.
  induction o as [|[sq' w] o IH]; cbn; [by intros ?%elem_of_nil|].
  intros [->|H]%elem_of_cons.
  - exists sq'. by rewrite String.eqb_refl.
  - destruct (IH H) as (sq & -> & Hs). exists sq. split; [done|].
    destruct (String.eqb _ _); eauto.
Qed.

Lemma getProp_deleteProp o sq sq' :
  getProp (deleteProp o (squareKey sq)) (squareKey sq')
  = if bool_decide (sq = sq') then None else getProp o (squareKey sq').
Proof.
  induction o as [|[s w] o IH]; cbn.
  - by case_bool_decide.
  - rewrite !squareKey_eqb. repeat case_bool_decide; subst; cbn;
      rewrite ?squareKey_eqb; repeat case_bool_decide; subst; try done;
      rewrite IH; by repeat case_bool_decide.
Qed.

Lemma getProp_setProp o sq sq' v :
  getProp (setProp o sq v) (squareKey sq')
  = if bool_decide (sq = sq') then Some v else getProp o (squareKey sq').
Proof.
  induction o as [|[s w] o IH]; cbn.
  - rewrite squareKey_eqb. by repeat case_bool_decide.
  - rewrite !squareKey_eqb. repeat case_bool_decide; subst; cbn;
      rewrite ?squareKey_eqb; repeat case_bool_decide; subst; done.
Qed.

End KeyedObject.

(** A [forEach] that only ever raises a flag. *)
Lemma fold_left_flag {A} (f : A → bool) (l : list A) (flag : bool) :
  fold_left (λ acc x, if f x then true else acc) l flag = flag || existsb f l.
Proof.
  revert flag. induction l as [|x l IH]; intros flag; simpl.
  - by rewrite orb_false_r.
  - rewrite IH. destruct (f x), flag; simpl; by rewrite ?orb_true_r.
Qed.

Lemma fold_left_ext_flag {A B} (f g : B → A → B) (l : list A) (b : B) :
  (∀ acc x, f acc x = g acc x) → fold_left f l b = fold_left g l b.
Proof.
  intros E. revert b. induction l as [|x l IH]; intros b; simpl; [done|].
  by rewrite E, IH.
Qed.

Lemma existsb_ext_eq {A} (f g : A → bool) (l : list A) :
  (∀ x, f x = g x) → existsb f l = existsb g l.
Proof. intros E. induction l as [|x l IH]; simpl; [done|]. by rewrite E, IH. Qed.

Lemma existsb_elem_of {A} (f : A → bool) (l : list A) :
  existsb f l = true ↔ ∃ x, x ∈ l ∧ f x = true.
Proof.
  rewrite existsb_exists. split; intros (x & H1 & H2); exists x;
    split; try done; by apply list_elem_of_In.
Qed.

(** ** Check detection *)

Section CheckDetection.
Context `{PM : PieceMovement}.
Implicit Types (b : Chessboard) (kingSide : Side).

Lemma kingPosition_Some b kingSide king :
  kingPosition kingSide b = Some king →
  ∃ p, onPositionPiece b king = Some p ∧ name p = "King" ∧ side p = kingSide.
Proof.
  unfold kingPosition.
  destruct (List.find _ _) as [key|] eqn:F; [|done].
  apply find_some in F as [Hin Hk]. apply list_elem_of_In in Hin.
  apply keys_squareKey in Hin as (sq & -> & _).
  rewrite keyToSquare_squareKey. intros [= <-].
  unfold onPositionPiece. destruct (getProp b (squareKey sq)) as [p|]; [|done].
  apply andb_prop in Hk as [Hn Hs].
  exists p. apply String.eqb_eq in Hn. by apply bool_decide_eq_true in Hs.
Qed.

Lemma kingPosition_None b kingSide :
  kingPosition kingSide b = None ↔
  ∀ sq p, onPositionPiece b sq = Some p → isKingOf kingSide p = false.
Proof.
  unfold kingPosition. split.
  - destruct (List.find _ _) as [key|] eqn:F.
    + apply find_some in F as [Hin _]. apply list_elem_of_In in Hin.
      apply keys_squareKey in Hin as (sq & -> & _).
      by rewrite keyToSquare_squareKey.
    + intros _ sq p Hp.
      pose proof (find_none _ _ F (squareKey sq)) as N. cbv beta in N.
      unfold onPositionPiece in Hp. rewrite Hp in N. apply N.
      apply list_elem_of_In. by eapply getProp_keys.
  - intros N. destruct (List.find _ _) as [key|] eqn:F; [|done].
    apply find_some in F as [Hin Hk]. apply list_elem_of_In in Hin.
    apply keys_squareKey in Hin as (sq & -> & _).
    destruct (getProp b (squareKey sq)) as [p|] eqn:Hp; [|done].
    specialize (N sq p Hp). unfold isKingOf in N. congruence.
Qed.

Lemma isKingChecked_existsb b kingSide :
  isKingChecked b kingSide = existsb (attacksKing b kingSide) (Object_keys b).
Proof.
  unfold isKingChecked.
  rewrite <- (orb_false_l (existsb _ _)), <- fold_left_flag.
  apply fold_left_ext_flag. intros flag key. unfold attacksKing.
  destruct (getProp b key) as [p|]; [|done].
  destruct (keyToSquare key) as [pos|]; [|done].
  case_bool_decide; [|done]. cbn [andb].
  by destruct (existsb _ _).
Qed.

(** X18.  [isKingChecked] answers true exactly when some piece of the
    other side has generated, on that board from its own square, an object
    that serializes as [{ column, row }] of the square [kingPosition] finds
    for [kingSide]; that square holds a king of [kingSide]; on a board
    without a king of [kingSide] the answer is false; and when every
    generated object is a literal [{ column, row }], the first is to say
    that the king's square is among the destinations of a piece of the
    other side. *)
Theorem isKingChecked_iff_serialized_king_generated b kingSide :
  (isKingChecked b kingSide = true ↔
     ∃ sq p king o,
       onPositionPiece b sq = Some p ∧ side p ≠ kingSide ∧
       kingPosition kingSide b = Some king ∧
       o ∈ PieceMovement_possibleMoves p sq b ∧
       JSON_stringify o = JSON_stringify (squareLiteral king))
  ∧ (∀ king, kingPosition kingSide b = Some king →
       ∃ p, onPositionPiece b king = Some p ∧ kind p = KING ∧ side p = kingSide)
  ∧ ((∀ sq p, onPositionPiece b sq = Some p → isKingOf kingSide p = false) →
     isKingChecked b kingSide = false)
  ∧ ((∀ sq p o, o ∈ PieceMovement_possibleMoves p sq b →
                o = squareLiteral (squareOf o)) →
     (isKingChecked b kingSide = true ↔
        ∃ sq p king,
          onPositionPiece b sq = Some p ∧ side p ≠ kingSide ∧
          kingPosition kingSide b = Some king ∧ king ∈ possibleMoves p sq b)).
Proof.
  assert (isKingChecked b kingSide = true ↔
     ∃ sq p king o,
       onPositionPiece b sq = Some p ∧ side p ≠ kingSide ∧
       kingPosition kingSide b = Some king ∧
       o ∈ PieceMovement_possibleMoves p sq b ∧
       JSON_stringify o = JSON_stringify (squareLiteral king)) as Iff.
  { rewrite isKingChecked_existsb, existsb_elem_of. split.
    - intros (key & Hin & Hk).
      apply keys_squareKey in Hin as (sq & -> & _).
      unfold attacksKing in Hk. rewrite keyToSquare_squareKey in Hk.
      destruct (getProp b (squareKey sq)) as [p|] eqn:Hp; [|done].
      apply andb_prop in Hk as [Hs Hm].
      apply bool_decide_eq_true in Hs.
      apply existsb_elem_of in Hm as (o & Ho & Heq).
      destruct (kingPosition kingSide b) as [king|] eqn:Hking; [|done].
      apply String.eqb_eq in Heq. by exists sq, p, king, o.
    - intros (sq & p & king & o & Hp & Hs & Hkp & Ho & Heq).
      exists (squareKey sq). split; [by eapply getProp_keys|].
      unfold attacksKing. rewrite keyToSquare_squareKey.
      unfold onPositionPiece in Hp. rewrite Hp.
      apply andb_true_intro. split; [by apply bool_decide_eq_true|].
      apply existsb_elem_of. exists o. split; [done|].
      rewrite Hkp. by apply String.eqb_eq. }
  split; [exact Iff|]. split.
  - intros king (p & Hp & Hname & Hside)%kingPosition_Some.
    exists p. split; [done|]. split; [|done].
    revert Hname. unfold name. by destruct (kind p).
  - split.
    { intros NoKing. apply kingPosition_None in NoKing.
      apply not_true_is_false. intros (sq & p & king & o & _ & _ & Hkp & _)%Iff.
      congruence. }
    intros Hliteral. rewrite Iff. split.
    + intros (sq & p & king & o & Hp & Hs & Hkp & Ho & Heq).
      exists sq, p, king. repeat split; try done.
      rewrite (Hliteral _ _ _ Ho) in Heq.
      apply JSON_stringify_literal_inj in Heq. subst king.
      unfold possibleMoves. by apply list_elem_of_fmap_2.
    + intros (sq & p & king & Hp & Hs & Hkp & Hin).
      unfold possibleMoves in Hin.
      apply list_elem_of_fmap in Hin as (o & -> & Ho).
      exists sq, p, (squareOf o), o. repeat split; try done.
      by rewrite <- (Hliteral _ _ _ Ho).
Qed.

End CheckDetection.

(** ** The turn protocol *)

Section TurnProtocol.
Context `{PM : PieceMovement}.
Implicit Types (this : Engine) (byPlayer : Player) (squareFrom squareTo : Square).

Lemma canMoveOnSquare_spec this squareFrom squareTo :
  canMoveOnSquare squareFrom squareTo this
  = (inr (match onPositionPiece (board this) squareFrom with
          | Some p => bool_decide (squareTo ∈ possibleMoves p squareFrom (board this))
          | None => false
          end), this).
Proof.
  unfold canMoveOnSquare, mbind, M_bind, get, mret, M_ret. f_equal. f_equal.
  destruct (onPositionPiece _ _) as [p|]; [|done]. cbn.
  destruct (existsb _ _) eqn:E; symmetry.
  - apply bool_decide_eq_true.
    apply existsb_elem_of in E as ([c r] & Hin & [Hc Hr]%andb_prop).
    apply bool_decide_eq_true in Hc, Hr. destruct squareTo. simpl in *. by subst.
  - apply bool_decide_eq_false. intros Hin.
    apply not_true_iff_false in E. apply E.
    apply existsb_elem_of. exists squareTo. split; [done|].
    by rewrite !bool_decide_eq_true_2.
Qed.

(** [move], one outcome per path through its body. *)
Lemma move_outcome byPlayer squareFrom squareTo this :
  move byPlayer squareFrom squareTo this
  = match onPositionPiece (board this) squareFrom with
    | None => (inl IllegalMove, this)
    | Some chosenPiece =>
        if bool_decide (player_side byPlayer ≠ currentSide this)
        then (inl OutOfTurn, this)
        else if bool_decide (player_side byPlayer ≠ side chosenPiece)
        then (inl WrongOwner, this)
        else if bool_decide (squareTo ∈ possibleMoves chosenPiece squareFrom (board this))
        then (inr (eventsOfMove (board this) chosenPiece squareFrom squareTo),
              mkEngine (movePiece (board this) squareFrom squareTo)
                       (changeTurn (side chosenPiece)))
        else (inl IllegalDestination, this)
    end.
Proof.
  unfold move. unfold mbind at 1. unfold M_bind, get.
  destruct (onPositionPiece (board this) squareFrom) as [p|] eqn:Hp; [|done].
  case_bool_decide; [done|]. case_bool_decide; [done|].
  unfold mbind at 1. unfold M_bind. rewrite canMoveOnSquare_spec, Hp.
  case_bool_decide; [|done]. cbn [negb].
  unfold eventsOfMove, pieceWasCaptured, onPieceWasMoved.
  unfold mbind, M_bind, get, put, mret, M_ret. cbn.
  destruct (onPositionPiece (board this) squareTo) as [q|]; [|done].
  by destruct (isOpponentOf q p).
Qed.

Lemma changeTurn_flips (s : Side) : changeTurn s ≠ s.
Proof. by destruct s. Qed.

(** C3.  Once a piece stands on the source square, it is the mover's turn
    and the piece is the mover's, [move] succeeds exactly when the
    destination is among the piece's candidate destinations on the live
    board; no test of the king's safety takes part, so a candidate after
    which [willBeKingChecked] holds is moved all the same. *)
Theorem move_succeeds_iff_candidate this byPlayer squareFrom squareTo chosenPiece :
  onPositionPiece (board this) squareFrom = Some chosenPiece →
  player_side byPlayer = currentSide this →
  player_side byPlayer = side chosenPiece →
  ((∃ events this', move byPlayer squareFrom squareTo this = (inr events, this'))
     ↔ squareTo ∈ possibleMoves chosenPiece squareFrom (board this))
  ∧ (squareTo ∈ possibleMoves chosenPiece squareFrom (board this) →
     willBeKingChecked this squareFrom squareTo = inr true →
     ∃ events this', move byPlayer squareFrom squareTo this = (inr events, this')).
Proof.
  intros Hp Hturn Hown. rewrite move_outcome, Hp.
  rewrite (bool_decide_eq_false_2 (_ ≠ currentSide this)) by (by intros []).
  rewrite (bool_decide_eq_false_2 (_ ≠ side chosenPiece)) by (by intros []).
  case_bool_decide as Hin.
  - split; [split|]; eauto.
  - split; [split|]; [by intros (? & ? & ?)|done..].
Qed.

(** C4.  A successful [move] returns the [PieceWasMoved] event first and,
    after it, a [PieceWasCaptured] event exactly when the destination
    held a piece of the other side before the move; it returns nothing
    else. *)
Theorem move_events_capture_iff this byPlayer squareFrom squareTo events this' :
  move byPlayer squareFrom squareTo this = (inr events, this') →
  ∃ chosenPiece,
    onPositionPiece (board this) squareFrom = Some chosenPiece ∧
    ((∃ e, Captured e ∈ events) ↔
       ∃ q, onPositionPiece (board this) squareTo = Some q ∧ side q ≠ side chosenPiece) ∧
    (events = [Moved (mkPieceWasMoved chosenPiece squareFrom squareTo)] ∨
     ∃ q, onPositionPiece (board this) squareTo = Some q ∧
          events = [Moved (mkPieceWasMoved chosenPiece squareFrom squareTo);
                    Captured (mkPieceWasCaptured q squareTo)]).
Proof.
  rewrite move_outcome.
  destruct (onPositionPiece (board this) squareFrom) as [p|]; [|done].
  repeat (case_bool_decide; [done|]). case_bool_decide; [|done].
  intros [= <- _]. exists p. split; [done|]. unfold eventsOfMove, isOpponentOf.
  destruct (onPositionPiece (board this) squareTo) as [q|].
  - case_bool_decide as Hq.
    + split; [|right; eauto]. split; [eauto|].
      intros _. eexists. apply list_elem_of_further, list_elem_of_here.
    + split; [|by left]. split.
      * intros (e & He). apply list_elem_of_singleton in He. done.
      * intros (q' & [= <-] & Hq'). done.
  - split; [|by left]. split.
    + intros (e & He). apply list_elem_of_singleton in He. done.
    + by intros (q' & ? & _).
Qed.

(** C5.  [move] fails exactly as [expectedFailure] says: with
    [IllegalMove] on an empty source square, else with [OutOfTurn], else
    with [WrongOwner], else with [IllegalDestination], in that order; and
    when none of the four checks fails it returns its events. *)
Theorem move_fails_in_order this byPlayer squareFrom squareTo :
  match expectedFailure this byPlayer squareFrom squareTo with
  | Some e =>
      (move byPlayer squareFrom squareTo this).1 = inl e ∧
      e ∈ [IllegalMove; OutOfTurn; WrongOwner; IllegalDestination]
  | None => ∃ events, (move byPlayer squareFrom squareTo this).1 = inr events
  end.
Proof.
  unfold expectedFailure. rewrite move_outcome.
  destruct (onPositionPiece (board this) squareFrom) as [p|];
    repeat case_bool_decide; cbn [fst];
    try (split; [done|apply list_elem_of_In; simpl; tauto]);
    try congruence; try done; eauto.
Qed.

Lemma move_throws_before_writing this byPlayer squareFrom squareTo e this' :
  move byPlayer squareFrom squareTo this = (inl e, this') → this' = this.
Proof.
  rewrite move_outcome.
  destruct (onPositionPiece (board this) squareFrom) as [p|];
    repeat case_bool_decide; by intros [= <- <-].
Qed.

(** C6.  A [move] that fails has changed nothing: the board and
    [currentSide] are those of before the call, and the failure is one of
    the four errors of the turn protocol. *)
Theorem move_failure_leaves_engine this byPlayer squareFrom squareTo e this' :
  move byPlayer squareFrom squareTo this = (inl e, this') →
  board this' = board this ∧ currentSide this' = currentSide this ∧
  e ∈ [IllegalMove; OutOfTurn; WrongOwner; IllegalDestination].
Proof.
  rewrite move_outcome.
  destruct (onPositionPiece (board this) squareFrom) as [p|];
    repeat case_bool_decide; intros [= <- <-]; (split; [done|split; [done|set_solver]]).
Qed.

Lemma ChessEngine_possibleMoves_reads this position :
  (ChessEngine_possibleMoves position this).2 = this.
Proof. done. Qed.

(** C7.  A successful [move] leaves [currentSide] on the other of the
    two sides.  The turn has the two values [WHITE] and [BLACK] only, and
    nothing else moves it: a failed [move] and a listing of the legal
    moves leave it as it was. *)
Theorem move_success_flips_currentSide this byPlayer squareFrom squareTo events this' :
  move byPlayer squareFrom squareTo this = (inr events, this') →
  currentSide this' = changeTurn (currentSide this) ∧
  currentSide this' ≠ currentSide this ∧
  (∀ s : Side, s = WHITE ∨ s = BLACK) ∧
  (∀ byPlayer' from' to' e that,
     move byPlayer' from' to' this = (inl e, that) → currentSide that = currentSide this) ∧
  (∀ position, currentSide (ChessEngine_possibleMoves position this).2 = currentSide this).
Proof.
  intros Hmove.
  assert (currentSide this' = changeTurn (currentSide this)) as Hflip.
  { revert Hmove. rewrite move_outcome.
    destruct (onPositionPiece (board this) squareFrom) as [p|]; [|done].
    case_bool_decide as Hturn; [done|]. case_bool_decide as Hown; [done|].
    case_bool_decide; [|done]. intros [= _ <-]. cbn.
    congruence. }
  split; [done|]. split; [rewrite Hflip; apply changeTurn_flips|].
  split; [by intros []; eauto|]. split; [|done].
  intros byPlayer' from' to' e that Hfail.
  by apply move_throws_before_writing in Hfail as ->.
Qed.

End TurnProtocol.

(** ** The listing of legal moves *)

Lemma filterE_total {A} (f : A → Error + bool) (g : A → bool) (xs : list A) :
  (∀ x, x ∈ xs → f x = inr (g x)) → filterE f xs = inr (List.filter g xs).
Proof.
  induction xs as [|x xs IH]; intros Hf; simpl; [done|].
  rewrite (Hf x) by apply list_elem_of_here.
  rewrite IH by (intros y Hy; apply Hf; by apply list_elem_of_further).
  by destruct (g x).
Qed.

Lemma elem_of_List_filter {A} (g : A → bool) (xs : list A) (x : A) :
  x ∈ List.filter g xs ↔ x ∈ xs ∧ g x = true.
Proof. rewrite !list_elem_of_In. apply filter_In. Qed.

Section LegalMoves.
Context `{PM : PieceMovement}.
Implicit Types (this : Engine) (position squareTo : Square) (piece : Piece).

(** The board of the simulation is the copy with the piece relocated. *)
Lemma returnWirtualProposedBoardAfterMove_movePiece
    (b : Chessboard) position squareTo piece :
  onPositionPiece b position = Some piece →
  returnWirtualProposedBoardAfterMove b position squareTo
  = Some (movePiece (cloneDeep b) position squareTo).
Proof.
  intros Hp. unfold returnWirtualProposedBoardAfterMove, movePiece, cloneDeep.
  by rewrite Hp.
Qed.

(** With no piece on the source square the simulation cannot run. *)
Lemma willBeKingChecked_empty_square this position squareTo :
  onPositionPiece (board this) position = None →
  willBeKingChecked this position squareTo = inl TypeError.
Proof.
  intros Hp. unfold willBeKingChecked, returnWirtualProposedBoardAfterMove.
  by rewrite Hp.
Qed.

Lemma willBeKingChecked_occupied this position squareTo piece :
  onPositionPiece (board this) position = Some piece →
  willBeKingChecked this position squareTo
  = inr (isKingChecked (movePiece (cloneDeep (board this)) position squareTo)
           (currentSide this)).
Proof.
  intros Hp. unfold willBeKingChecked.
  by rewrite (returnWirtualProposedBoardAfterMove_movePiece _ _ _ _ Hp).
Qed.

Lemma ChessEngine_possibleMoves_occupied this position piece :
  onPositionPiece (board this) position = Some piece →
  ChessEngine_possibleMoves position this = (inr (survivors this position piece), this).
Proof.
  intros Hp.
  unfold ChessEngine_possibleMoves, returnPlayerMovesWithoutThoseThatCauseHisKingToCheck,
    reading, survivors.
  rewrite Hp. cbn [fmap option_fmap option_map default]. f_equal.
  apply filterE_total. intros squareTo _.
  by rewrite (willBeKingChecked_occupied _ _ _ _ Hp).
Qed.

(** The listing never fails: an empty square has no candidates. *)
Lemma ChessEngine_possibleMoves_empty_square this position :
  onPositionPiece (board this) position = None →
  ChessEngine_possibleMoves position this = (inr [], this).
Proof.
  intros Hp.
  unfold ChessEngine_possibleMoves, returnPlayerMovesWithoutThoseThatCauseHisKingToCheck,
    reading.
  by rewrite Hp.
Qed.

(** C1.  On an occupied square the listing returns the piece's candidate
    destinations on the live board, in their order, without those after
    which the king of [currentSide] is checked on the hypothetical board,
    the copy of the live board with the piece relocated: a candidate is
    kept exactly when [isKingChecked] is false there and discarded
    exactly when it is true. *)
Theorem ChessEngine_possibleMoves_keeps_safe_candidates this position piece :
  onPositionPiece (board this) position = Some piece →
  ∃ legal,
    ChessEngine_possibleMoves position this = (inr legal, this) ∧
    legal = List.filter
              (λ squareTo, negb (isKingChecked
                 (movePiece (cloneDeep (board this)) position squareTo)
                 (currentSide this)))
              (possibleMoves piece position (board this)) ∧
    (∀ squareTo, squareTo ∈ legal → squareTo ∈ possibleMoves piece position (board this)) ∧
    (∀ squareTo, squareTo ∈ possibleMoves piece position (board this) →
       ∃ hypothetical,
         returnWirtualProposedBoardAfterMove (board this) position squareTo
           = Some hypothetical ∧
         hypothetical = movePiece (cloneDeep (board this)) position squareTo ∧
         (squareTo ∈ legal ↔ isKingChecked hypothetical (currentSide this) = false) ∧
         (squareTo ∉ legal ↔ isKingChecked hypothetical (currentSide this) = true)).
Proof.
  intros Hp. exists (survivors this position piece).
  split; [by apply ChessEngine_possibleMoves_occupied|].
  split; [done|]. unfold survivors. split.
  - by intros squareTo [? _]%elem_of_List_filter.
  - intros squareTo Hin. eexists.
    split; [by eapply returnWirtualProposedBoardAfterMove_movePiece|].
    split; [done|]. rewrite elem_of_List_filter.
    destruct (isKingChecked _ _); cbn [negb].
    + split; split; try done; [by intros [_ ?]|by intros _ [_ ?]].
    + split; split; try done. intros Hn. by destruct Hn.
Qed.

(** C10.  The filter of the listing asks about the king of [currentSide]
    whoever owns the piece on the square: for a piece of the side that is
    not to move, a candidate is kept exactly when the king of the other
    side, the piece's opponent, is not checked on the hypothetical
    board. *)
Theorem ChessEngine_possibleMoves_tests_side_to_move this position piece :
  onPositionPiece (board this) position = Some piece →
  ∃ legal,
    ChessEngine_possibleMoves position this = (inr legal, this) ∧
    (∀ squareTo, squareTo ∈ legal ↔
       squareTo ∈ possibleMoves piece position (board this) ∧
       willBeKingChecked this position squareTo = inr false) ∧
    (∀ squareTo, willBeKingChecked this position squareTo
       = inr (isKingChecked (movePiece (cloneDeep (board this)) position squareTo)
                (currentSide this))) ∧
    (side piece ≠ currentSide this →
     currentSide this = changeTurn (side piece) ∧
     ∀ squareTo, squareTo ∈ legal ↔
       squareTo ∈ possibleMoves piece position (board this) ∧
       isKingChecked (movePiece (cloneDeep (board this)) position squareTo)
         (changeTurn (side piece)) = false).
Proof.
  intros Hp. exists (survivors this position piece).
  split; [by apply ChessEngine_possibleMoves_occupied|].
  assert (∀ squareTo, squareTo ∈ survivors this position piece ↔
       squareTo ∈ possibleMoves piece position (board this) ∧
       isKingChecked (movePiece (cloneDeep (board this)) position squareTo)
         (currentSide this) = false) as Hmem.
  { intros squareTo. unfold survivors. rewrite elem_of_List_filter.
    by rewrite negb_true_iff. }
  split; [|split].
  - intros squareTo. rewrite Hmem, (willBeKingChecked_occupied _ _ _ _ Hp).
    split; intros [? E]; split; try done; congruence.
  - intros squareTo. by apply (willBeKingChecked_occupied _ _ _ piece).
  - intros Hside.
    assert (currentSide this = changeTurn (side piece)) as Hother.
    { destruct (side piece), (currentSide this); done. }
    split; [done|]. intros squareTo. by rewrite Hmem, <- Hother.
Qed.

End LegalMoves.

(** ** The pawn *)

Lemma Array_concat_app {A} (xs : list A) (args : list (list A)) :
  Array_concat xs args = xs ++ concat args.
Proof.
  unfold Array_concat. revert xs.
  induction args as [|a args IH]; intros xs; simpl.
  - by rewrite app_nil_r.
  - by rewrite IH, app_assoc.
Qed.

(** C9.  [Pawn.possibleMoves] is the result of the single step, then that
    of the double step, then that of the diagonal step, and holds no other
    destination. *)
Theorem Pawn_possibleMoves_concatenates `{PawnRules} (this : Piece)
    (position : Square) (board : Chessboard) :
  Pawn_possibleMoves this position board
  = goAhead this position board
    ++ goDoubleAhead this position board
    ++ goDiagonalAhead this position board
  ∧ (∀ sq, sq ∈ Pawn_possibleMoves this position board ↔
       sq ∈ goAhead this position board
       ∨ sq ∈ goDoubleAhead this position board
       ∨ sq ∈ goDiagonalAhead this position board)
  ∧ length (Pawn_possibleMoves this position board)
    = (length (goAhead this position board)
       + length (goDoubleAhead this position board)
       + length (goDiagonalAhead this position board))%nat.
Proof.
  assert (Pawn_possibleMoves this position board
          = goAhead this position board
            ++ goDoubleAhead this position board
            ++ goDiagonalAhead this position board) as E.
  { unfold Pawn_possibleMoves. rewrite Array_concat_app. simpl.
    by rewrite app_nil_r. }
  split; [done|]. rewrite E. split.
  - intros sq. by rewrite !elem_of_app.
  - rewrite !length_app. lia.
Qed.

(** ** The store: what the simulation allocates and what it shares *)

Section Store.
Implicit Types (σ : gmap loc Obj) (seen : gmap loc loc)
  (props : KeyedObject (option loc)) (v : option loc).

Lemma alloc_spec σ o σ' l :
  alloc σ o = (σ', l) → σ !! l = None ∧ σ' = <[l := o]> σ ∧ σ ⊆ σ'.
Proof.
  unfold alloc. intros [= <- <-].
  assert (σ !! fresh (dom σ) = None) as Hfresh.
  { apply not_elem_of_dom, is_fresh. }
  split; [done|]. split; [done|]. by apply insert_subseteq.
Qed.

Lemma cloneValue_frame σ seen v σ' seen' v' :
  cloneValue σ seen v = (σ', seen', v') → σ ⊆ σ'.
Proof.
  unfold cloneValue. destruct v as [l|]; [|by intros [= <- _ _]].
  destruct (seen !! l); [by intros [= <- _ _]|].
  destruct (σ !! l) as [[p|?]|]; try by intros [= <- _ _].
  destruct (alloc σ (PieceObj p)) as [σ1 l1] eqn:Ha.
  intros [= <- _ _]. by apply alloc_spec in Ha as (_ & _ & ?).
Qed.

Lemma cloneProps_frame props σ seen σ' seen' props' :
  cloneProps σ seen props = (σ', seen', props') → σ ⊆ σ'.
Proof.
  revert σ seen σ' seen' props'.
  induction props as [|[sq v] props IH]; intros σ seen σ' seen' props'; simpl.
  - by intros [= <- _ _].
  - destruct (cloneValue σ seen v) as [[σ1 seen1] v1] eqn:Hv.
    destruct (cloneProps σ1 seen1 props) as [[σ2 seen2] rest] eqn:Hr.
    intros [= <- _ _]. etrans; [by eapply cloneValue_frame|by eapply IH].
Qed.

(** The copy is a new object, and every object of before is as it was. *)
Lemma cloneDeepS_frame σ chessboard σ' w :
  cloneDeepS σ chessboard = (σ', w) →
  σ ⊆ σ' ∧ (is_Some (viewBoard σ chessboard) → σ !! w = None).
Proof.
  unfold cloneDeepS, viewBoard.
  destruct (σ !! chessboard) as [[p|props]|] eqn:Hb;
    try (intros [= <- <-]; split; [done|by intros [? ?]]).
  destruct (cloneProps σ ∅ props) as [[σ1 seen1] props'] eqn:Hc.
  intros (Hfresh & _ & Hsub)%alloc_spec.
  apply cloneProps_frame in Hc. split; [by etrans|].
  intros _. by eapply lookup_weaken_None.
Qed.

Lemma updateProps_frame σ0 σ w f :
  σ0 ⊆ σ → σ0 !! w = None → σ0 ⊆ updateProps σ w f.
Proof.
  intros Hsub Hw. unfold updateProps.
  destruct (σ !! w) as [[?|props]|]; try done.
  apply map_subseteq_spec. intros l o Hl.
  destruct (decide (l = w)) as [->|Hne]; [congruence|].
  rewrite lookup_insert_ne by done. by eapply lookup_weaken.
Qed.

Lemma derefPiece_weaken σ σ' v p :
  σ ⊆ σ' → derefPiece σ v = Some p → derefPiece σ' v = Some p.
Proof.
  intros Hsub. destruct v as [l|]; [|done]. unfold derefPiece. cbn.
  destruct (σ !! l) as [[q|?]|] eqn:Hl; try done.
  intros [= ->]. by rewrite (lookup_weaken _ _ _ _ Hl Hsub).
Qed.

Lemma viewProps_weaken σ σ' props b :
  σ ⊆ σ' → viewProps σ props = Some b → viewProps σ' props = Some b.
Proof.
  intros Hsub. revert b.
  induction props as [|[sq v] props IH]; intros b; [done|]. cbn.
  destruct (derefPiece σ v) as [p|] eqn:Hp; [|done].
  rewrite (derefPiece_weaken _ _ _ _ Hsub Hp). cbn.
  destruct (viewProps σ props) as [rest|]; [|done].
  by rewrite (IH rest eq_refl).
Qed.

Lemma cloneValue_view σ0 σ seen v p σ' seen' v' :
  copied σ0 σ seen →
  derefPiece σ v = Some p →
  cloneValue σ seen v = (σ', seen', v') →
  copied σ0 σ' seen' ∧ derefPiece σ' v' = Some p ∧
  ∃ l', v' = Some l' ∧ σ0 !! l' = None.
Proof.
  intros [Hsub Hseen]. unfold cloneValue, derefPiece.
  destruct v as [l|]; [|done]. cbn.
  destruct (σ !! l) as [[q|?]|] eqn:Hl; try done. intros [= ->].
  destruct (seen !! l) as [l'|] eqn:Hs.
  - intros [= <- <- <-]. destruct (Hseen l l' Hs) as (H0 & q & Hq & Hq').
    split; [by split|]. split; [|by eauto]. cbn. rewrite Hq'. congruence.
  - destruct (alloc σ (PieceObj p)) as [σ1 l1] eqn:Ha.
    apply alloc_spec in Ha as (Hfresh & -> & Hsub1). intros [= <- <- <-].
    assert (σ0 !! l1 = None) as H0 by (by eapply lookup_weaken_None).
    split; [split|split].
    + by etrans.
    + intros k k'. rewrite lookup_insert. case_decide as Hk.
      * subst k. intros [= <-]. split; [done|]. exists p.
        rewrite lookup_insert_eq. split; [|done].
        rewrite lookup_insert_ne; [done|congruence].
      * intros Hk'. destruct (Hseen k k' Hk') as (? & q & Hq & Hq').
        split; [done|]. exists q.
        split; by eapply lookup_weaken.
    + cbn. by rewrite lookup_insert_eq.
    + eauto.
Qed.

Lemma cloneProps_view props σ0 σ seen b σ' seen' props' :
  copied σ0 σ seen →
  viewProps σ props = Some b →
  cloneProps σ seen props = (σ', seen', props') →
  copied σ0 σ' seen' ∧ viewProps σ' props' = Some b ∧
  ∀ key l', getProp props' key = Some (Some l') → σ0 !! l' = None.
Proof.
  revert σ seen b σ' seen' props'.
  induction props as [|[sq v] props IH]; intros σ seen b σ' seen' props' Hc; cbn.
  - intros [= <-] [= <- <- <-]. done.
  - destruct (derefPiece σ v) as [p|] eqn:Hp; [|done]. cbn.
    destruct (viewProps σ props) as [rest|] eqn:Hrest; [|done]. intros [= <-].
    destruct (cloneValue σ seen v) as [[σ1 seen1] v1] eqn:Hv.
    destruct (cloneProps σ1 seen1 props) as [[σ2 seen2] rest'] eqn:Hr.
    intros [= <- <- <-].
    destruct (cloneValue_view _ _ _ _ _ _ _ _ Hc Hp Hv) as (Hc1 & Hp1 & l1 & -> & Hl1).
    assert (viewProps σ1 props = Some rest) as Hrest1.
    { eapply viewProps_weaken; [|done]. by eapply cloneValue_frame. }
    destruct (IH _ _ _ _ _ _ Hc1 Hrest1 Hr) as (Hc2 & Hv2 & Hfresh).
    split; [done|]. split.
    + cbn. assert (σ1 ⊆ σ2) as Hsub by (by eapply cloneProps_frame).
      rewrite (derefPiece_weaken _ _ _ _ Hsub Hp1). cbn. by rewrite Hv2.
    + intros key l'. cbn. destruct (String.eqb _ _); [by intros [= <-]|].
      apply Hfresh.
Qed.

Lemma cloneDeepS_view σ chessboard b σ' w :
  viewBoard σ chessboard = Some b →
  cloneDeepS σ chessboard = (σ', w) →
  σ ⊆ σ' ∧ σ !! w = None ∧
  ∃ props', σ' !! w = Some (ChessboardObj props') ∧
            viewProps σ' props' = Some b ∧
            ∀ key l', getProp props' key = Some (Some l') → σ !! l' = None.
Proof.
  unfold viewBoard, cloneDeepS.
  destruct (σ !! chessboard) as [[?|props]|]; try done. intros Hv.
  destruct (cloneProps σ ∅ props) as [[σ1 seen1] props'] eqn:Hc.
  intros (Hfresh & -> & Hsub)%alloc_spec.
  assert (copied σ σ ∅) as H0 by (split; [done|by intros ? ?]).
  destruct (cloneProps_view _ _ _ _ _ _ _ _ H0 Hv Hc) as ([Hsub1 _] & Hv1 & Hnew).
  split; [by etrans|]. split; [by eapply lookup_weaken_None|].
  exists props'. rewrite lookup_insert_eq. split; [done|].
  split; [by eapply viewProps_weaken|done].
Qed.

Lemma viewProps_deleteProp σ props b key :
  viewProps σ props = Some b →
  viewProps σ (deleteProp props key) = Some (deleteProp b key).
Proof.
  revert b. induction props as [|[sq v] props IH]; intros b; cbn.
  - by intros [= <-].
  - destruct (derefPiece σ v) as [p|] eqn:Hp; [|done]. cbn.
    destruct (viewProps σ props) as [rest|]; [|done]. intros [= <-]. cbn.
    destruct (String.eqb _ _); [by apply IH|].
    cbn. by rewrite Hp, (IH rest eq_refl).
Qed.

Lemma viewProps_setProp σ props b sq v :
  viewProps σ props = Some b →
  viewProps σ (setProp props sq v) = (λ p, setProp b sq p) <$> derefPiece σ v.
Proof.
  revert b. induction props as [|[sq' v'] props IH]; intros b; cbn.
  - intros [= <-]. by destruct (derefPiece σ v).
  - destruct (derefPiece σ v') as [p'|] eqn:Hp'; [|done]. cbn.
    destruct (viewProps σ props) as [rest|] eqn:Hrest; [|done]. intros [= <-]. cbn.
    destruct (String.eqb _ _); cbn.
    + rewrite Hrest. by destruct (derefPiece σ v).
    + rewrite Hp', (IH rest eq_refl). by destruct (derefPiece σ v).
Qed.

Lemma viewProps_getProp σ props b key :
  viewProps σ props = Some b →
  derefPiece σ (mjoin (getProp props key)) = getProp b key.
Proof.
  revert b. induction props as [|[sq v] props IH]; intros b; cbn.
  - by intros [= <-].
  - destruct (derefPiece σ v) as [p|] eqn:Hp; [|done]. cbn.
    destruct (viewProps σ props) as [rest|]; [|done]. intros [= <-]. cbn.
    destruct (String.eqb _ _); [done|]. by apply IH.
Qed.

(** An assignment to the properties of a board leaves every piece as it
    was. *)
Lemma derefPiece_insert_board σ w props' v :
  (∀ p, σ !! w ≠ Some (PieceObj p)) →
  derefPiece (<[w := ChessboardObj props']> σ) v = derefPiece σ v.
Proof.
  intros Hw. destruct v as [l|]; [|done]. unfold derefPiece. cbn.
  rewrite lookup_insert. case_decide as E; [|done]. subst l.
  destruct (σ !! w) as [[p|?]|] eqn:Hl; try done. by destruct (Hw p).
Qed.

Lemma viewProps_insert_board σ w props' props :
  (∀ p, σ !! w ≠ Some (PieceObj p)) →
  viewProps (<[w := ChessboardObj props']> σ) props = viewProps σ props.
Proof.
  intros Hw. induction props as [|[sq v] props IH]; [done|]. cbn.
  by rewrite derefPiece_insert_board, IH.
Qed.

(** The store after the simulated move: nothing of before has changed,
    the new board reads as the board of [returnWirtualProposedBoardAfterMove],
    and its property [squareTo] holds the reference the live board has
    under [squareFrom]. *)
Lemma returnWirtualProposedBoardAfterMoveS_view σ chessboard b squareFrom squareTo σ' w :
  viewBoard σ chessboard = Some b →
  returnWirtualProposedBoardAfterMoveS σ chessboard squareFrom squareTo = (σ', w) →
  σ ⊆ σ' ∧ σ !! w = None ∧
  viewBoard σ' w = returnWirtualProposedBoardAfterMove b squareFrom squareTo ∧
  onPositionPieceS σ' w squareTo = onPositionPieceS σ chessboard squareFrom.
Proof.
  intros Hv. unfold returnWirtualProposedBoardAfterMoveS.
  destruct (cloneDeepS σ chessboard) as [σ1 w1] eqn:Hc. intros [= <- <-].
  destruct (cloneDeepS_view _ _ _ _ _ Hv Hc) as (Hsub & Hfresh & props' & Hw & Hv' & _).
  unfold viewBoard in Hv.
  destruct (σ !! chessboard) as [[?|props]|] eqn:Hb; try done.
  assert (onPositionPieceS σ1 chessboard squareFrom
          = onPositionPieceS σ chessboard squareFrom) as Hmoved.
  { unfold onPositionPieceS, squaresWithPieceS.
    by rewrite Hb, (lookup_weaken _ _ _ _ Hb Hsub). }
  rewrite Hmoved.
  set (movedPiece := onPositionPieceS σ chessboard squareFrom).
  assert (∀ f g, updateProps (updateProps σ1 w1 f) w1 g
                 = <[w1 := ChessboardObj (g (f props'))]> σ1) as ->.
  { intros f g. unfold updateProps.
    by rewrite Hw, lookup_insert_eq, insert_insert_eq. }
  split; [|split; [done|split]].
  - apply map_subseteq_spec. intros l o Hl.
    destruct (decide (l = w1)) as [->|Hne]; [congruence|].
    rewrite lookup_insert_ne by done. by eapply lookup_weaken.
  - unfold viewBoard. rewrite lookup_insert_eq.
    rewrite viewProps_insert_board by (intros p; congruence).
    rewrite (viewProps_setProp _ _ _ _ _ (viewProps_deleteProp _ _ _ _ Hv')).
    unfold returnWirtualProposedBoardAfterMove, cloneDeep, onPositionPiece.
    assert (derefPiece σ1 movedPiece = getProp b (squareKey squareFrom)) as ->; [|done].
    unfold movedPiece, onPositionPieceS, squaresWithPieceS. rewrite Hb.
    apply viewProps_getProp. by eapply viewProps_weaken.
  - unfold onPositionPieceS at 1. unfold squaresWithPieceS.
    rewrite lookup_insert_eq, getProp_setProp.
    by rewrite bool_decide_eq_true_2.
Qed.

End Store.

Section ChessEngineStoreFacts.
Context `{PM : PieceMovement}.
Implicit Types (σ : gmap loc Obj) (this : EngineS) (b : Chessboard).

Lemma viewBoard_weaken σ σ' chessboard b :
  σ ⊆ σ' → viewBoard σ chessboard = Some b → viewBoard σ' chessboard = Some b.
Proof.
  intros Hsub. unfold viewBoard.
  destruct (σ !! chessboard) as [[?|props]|] eqn:Hb; try done.
  rewrite (lookup_weaken _ _ _ _ Hb Hsub). by apply viewProps_weaken.
Qed.

Lemma willBeKingCheckedS_refines σ this b squareFrom squareTo σ' r :
  viewBoard σ (boardS this) = Some b →
  willBeKingCheckedS σ this squareFrom squareTo = (σ', r) →
  σ ⊆ σ' ∧ r = willBeKingChecked (mkEngine b (currentSideS this)) squareFrom squareTo.
Proof.
  intros Hv. unfold willBeKingCheckedS, willBeKingChecked.
  destruct (returnWirtualProposedBoardAfterMoveS _ _ _ _) as [σ1 w] eqn:Hr.
  destruct (returnWirtualProposedBoardAfterMoveS_view _ _ _ _ _ _ _ Hv Hr)
    as (Hsub & _ & Hview & _).
  cbn [board currentSide]. rewrite <- Hview.
  destruct (viewBoard σ1 w); by intros [= <- <-].
Qed.

Lemma filterCandidatesS_refines candidates σ this b position σ' r :
  viewBoard σ (boardS this) = Some b →
  filterCandidatesS σ this position candidates = (σ', r) →
  σ ⊆ σ' ∧
  r = filterE (λ onePossibleMove,
        match willBeKingChecked (mkEngine b (currentSideS this)) position
                onePossibleMove with
        | inl e => inl e
        | inr checked => inr (negb checked)
        end) candidates.
Proof.
  revert σ σ' r.
  induction candidates as [|m candidates IH]; intros σ σ' r Hv; cbn.
  - by intros [= <- <-].
  - destruct (willBeKingCheckedS σ this position m) as [σ1 r1] eqn:Hw.
    destruct (willBeKingCheckedS_refines _ _ _ _ _ _ _ Hv Hw) as [Hsub ->].
    destruct (willBeKingChecked _ _ _) as [e|checked]; [by intros [= <- <-]|].
    destruct (filterCandidatesS σ1 this position candidates) as [σ2 r2] eqn:Hf.
    destruct (IH _ _ _ (viewBoard_weaken _ _ _ _ Hsub Hv) Hf) as [Hsub2 ->].
    destruct (filterE _ candidates); intros [= <- <-];
      (split; [by etrans|by destruct checked]).
Qed.

(** The listing over the store computes the listing on the board it
    reads, and every object of before the call, the live board and its
    pieces among them, is as it was. *)
Lemma possibleMovesS_refines σ this b position σ' r :
  viewBoard σ (boardS this) = Some b →
  possibleMovesS σ this position = (σ', r) →
  σ ⊆ σ' ∧
  σ' !! boardS this = σ !! boardS this ∧
  viewBoard σ' (boardS this) = Some b ∧
  r = (ChessEngine_possibleMoves position (mkEngine b (currentSideS this))).1.
Proof.
  intros Hv. unfold possibleMovesS. rewrite Hv. intros Hf.
  destruct (filterCandidatesS_refines _ _ _ _ _ _ _ Hv Hf) as [Hsub ->].
  split; [done|]. split; [|split; [by eapply viewBoard_weaken|done]].
  unfold viewBoard in Hv.
  destruct (σ !! boardS this) as [o|] eqn:Hb; [|done].
  by rewrite (lookup_weaken _ _ _ _ Hb Hsub).
Qed.

(** A deep copy alone shares no piece with its original. *)
Lemma cloneDeepS_pieces_new σ chessboard b σ' w sq l :
  viewBoard σ chessboard = Some b →
  cloneDeepS σ chessboard = (σ', w) →
  onPositionPieceS σ' w sq = Some l →
  σ !! l = None.
Proof.
  intros Hv Hc.
  destruct (cloneDeepS_view _ _ _ _ _ Hv Hc) as (_ & _ & props' & Hw & _ & Hnew).
  unfold onPositionPieceS, squaresWithPieceS. rewrite Hw.
  destruct (getProp props' (squareKey sq)) as [[l'|]|] eqn:Hg; try done.
  intros [= <-]. by eapply Hnew.
Qed.

(** The board of the simulation does: the piece it holds on [squareTo]
    is the object the live board holds on [squareFrom]. *)
Lemma returnWirtualProposedBoardAfterMoveS_shares σ chessboard b squareFrom squareTo σ' w p :
  viewBoard σ chessboard = Some b →
  onPositionPiece b squareFrom = Some p →
  returnWirtualProposedBoardAfterMoveS σ chessboard squareFrom squareTo = (σ', w) →
  ∃ l, onPositionPieceS σ' w squareTo = Some l ∧
       onPositionPieceS σ chessboard squareFrom = Some l ∧
       σ !! l = Some (PieceObj p).
Proof.
  intros Hv Hp Hr.
  destruct (returnWirtualProposedBoardAfterMoveS_view _ _ _ _ _ _ _ Hv Hr)
    as (_ & _ & _ & Hshare).
  rewrite Hshare. unfold viewBoard in Hv.
  destruct (σ !! chessboard) as [[?|props]|] eqn:Hb; try done.
  pose proof (viewProps_getProp _ _ _ (squareKey squareFrom) Hv) as Hd.
  unfold onPositionPiece in Hp. rewrite Hp in Hd.
  unfold onPositionPieceS, squaresWithPieceS. rewrite Hb.
  destruct (mjoin (getProp props (squareKey squareFrom))) as [l|]; [|done].
  exists l. split; [done|]. split; [done|].
  unfold derefPiece in Hd. cbn in Hd.
  destruct (σ !! l) as [[q|?]|]; try done. congruence.
Qed.

End ChessEngineStoreFacts.

(** * The engine on a position *)

Ltac by_evaluation := apply (bool_decide_unpack _); vm_compute; exact I.

Section Evaluation.
#[local] Existing Instance specPossibleMoves.

(** The knight on E2 has five candidates and no legal move: each of them
    lets the rook on E8 reach the king. *)
Lemma ChessEngine_possibleMoves_keeps_safe_candidates_witness :
  onPositionPiece (board demoEngine) E2 = Some whiteKnight ∧
  length (possibleMoves whiteKnight E2 demoBoard) = 5%nat ∧
  ∃ legal, ChessEngine_possibleMoves E2 demoEngine = (inr legal, demoEngine) ∧
           legal = [].
Proof.
  split; [(vm_compute; reflexivity)|]. split; [(vm_compute; reflexivity)|].
  destruct (ChessEngine_possibleMoves_keeps_safe_candidates demoEngine E2 whiteKnight)
    as (legal & Hcall & Hlegal & _); [(vm_compute; reflexivity)|].
  exists legal. split; [exact Hcall|]. rewrite Hlegal. vm_compute. reflexivity.
Defined.

(** The pinned knight is moved by [move] although its king is checked
    afterwards. *)
Lemma move_succeeds_iff_candidate_witness :
  onPositionPiece (board demoEngine) E2 = Some whiteKnight ∧
  player_side (mkPlayer WHITE) = currentSide demoEngine ∧
  player_side (mkPlayer WHITE) = side whiteKnight ∧
  C3 ∈ possibleMoves whiteKnight E2 (board demoEngine) ∧
  willBeKingChecked demoEngine E2 C3 = inr true ∧
  ∃ events this', move (mkPlayer WHITE) E2 C3 demoEngine = (inr events, this').
Proof.
  split; [(vm_compute; reflexivity)|]. split; [(vm_compute; reflexivity)|]. split; [(vm_compute; reflexivity)|].
  split; [by_evaluation|]. split; [(vm_compute; reflexivity)|].
  apply (move_succeeds_iff_candidate demoEngine (mkPlayer WHITE) E2 C3 whiteKnight);
    [(vm_compute; reflexivity)|(vm_compute; reflexivity)|(vm_compute; reflexivity)|by_evaluation|(vm_compute; reflexivity)].
Defined.

(** The rook takes the pawn on D7. *)
Lemma move_events_capture_iff_witness :
  (move (mkPlayer WHITE) D4 D7 demoEngine).1
  = inr [Moved (mkPieceWasMoved whiteRook D4 D7);
         Captured (mkPieceWasCaptured blackPawn D7)] ∧
  ∃ chosenPiece,
    onPositionPiece (board demoEngine) D4 = Some chosenPiece ∧
    ∃ q, onPositionPiece (board demoEngine) D7 = Some q ∧ side q ≠ side chosenPiece.
Proof.
  assert (move (mkPlayer WHITE) D4 D7 demoEngine
          = (inr [Moved (mkPieceWasMoved whiteRook D4 D7);
                  Captured (mkPieceWasCaptured blackPawn D7)],
             (move (mkPlayer WHITE) D4 D7 demoEngine).2)) as Hcall
    by (vm_compute; reflexivity).
  split; [vm_compute; reflexivity|].
  destruct (move_events_capture_iff demoEngine (mkPlayer WHITE) D4 D7 _ _ Hcall)
    as (chosenPiece & Hp & Hiff & _).
  exists chosenPiece. split; [exact Hp|]. apply Hiff.
  eexists. apply list_elem_of_further, list_elem_of_here.
Defined.

(** Black may not move first. *)
Lemma move_failure_leaves_engine_witness :
  move (mkPlayer BLACK) D7 D6 demoEngine = (inl OutOfTurn, demoEngine) ∧
  board demoEngine = board demoEngine ∧ currentSide demoEngine = currentSide demoEngine ∧
  OutOfTurn ∈ [IllegalMove; OutOfTurn; WrongOwner; IllegalDestination].
Proof.
  split; [(vm_compute; reflexivity)|].
  apply (move_failure_leaves_engine demoEngine (mkPlayer BLACK) D7 D6 OutOfTurn demoEngine).
  (vm_compute; reflexivity).
Defined.

(** After the rook's step it is black's turn. *)
Lemma move_success_flips_currentSide_witness :
  is_inr (move (mkPlayer WHITE) D4 D5 demoEngine).1 = true ∧
  currentSide demoEngine = WHITE ∧
  currentSide (move (mkPlayer WHITE) D4 D5 demoEngine).2 = BLACK.
Proof.
  assert (move (mkPlayer WHITE) D4 D5 demoEngine
          = (inr [Moved (mkPieceWasMoved whiteRook D4 D5)],
             (move (mkPlayer WHITE) D4 D5 demoEngine).2)) as Hcall
    by (vm_compute; reflexivity).
  split; [vm_compute; reflexivity|]. split; [vm_compute; reflexivity|].
  destruct (move_success_flips_currentSide demoEngine (mkPlayer WHITE) D4 D5 _ _ Hcall)
    as (Hflip & _).
  rewrite Hflip. vm_compute; reflexivity.
Defined.

(** With white to move, the listing for the black rook on E8 keeps E5,
    which uncovers the black king to the queen, and drops the capture on
    E2, after which the white king is checked. *)
Lemma ChessEngine_possibleMoves_tests_side_to_move_witness :
  onPositionPiece (board demoEngine) E8 = Some blackRook ∧
  side blackRook ≠ currentSide demoEngine ∧
  isKingChecked (movePiece (cloneDeep demoBoard) E8 E5) (side blackRook) = true ∧
  isKingChecked (movePiece (cloneDeep demoBoard) E8 E2) WHITE = true ∧
  E2 ∈ possibleMoves blackRook E8 demoBoard ∧
  ∃ legal, ChessEngine_possibleMoves E8 demoEngine = (inr legal, demoEngine) ∧
           E5 ∈ legal ∧ E2 ∉ legal.
Proof.
  split; [(vm_compute; reflexivity)|]. split; [discriminate|]. split; [(vm_compute; reflexivity)|].
  split; [(vm_compute; reflexivity)|]. split; [by_evaluation|].
  destruct (ChessEngine_possibleMoves_tests_side_to_move demoEngine E8 blackRook)
    as (legal & Hcall & _ & _ & Hother); [(vm_compute; reflexivity)|].
  destruct Hother as [_ Hmem]; [discriminate|].
  exists legal. split; [exact Hcall|]. split.
  - apply Hmem. split; [by_evaluation|(vm_compute; reflexivity)].
  - intros [_ Hsafe]%Hmem. vm_compute in Hsafe. discriminate.
Defined.

(** C8.  The board built for the simulation of the rook's step from D4
    to D5 holds on D5 the very object the live board holds on D4, an
    object of before the copy: an assignment to the piece reached through
    the simulation's board shows on the live board.  The live board's own
    properties are as they were. *)
Theorem simulation_board_shares_the_moved_piece :
  D5 ∈ possibleMoves whiteRook D4 demoBoard ∧
  viewBoard demoStore demoBoardLoc = Some demoBoard ∧
  let r := returnWirtualProposedBoardAfterMoveS demoStore demoBoardLoc D4 D5 in
  r.1 !! demoBoardLoc = demoStore !! demoBoardLoc ∧
  onPositionPieceS r.1 r.2 D5 = Some 3 ∧
  onPositionPieceS demoStore demoBoardLoc D4 = Some 3 ∧
  demoStore !! 3 = Some (PieceObj whiteRook) ∧
  viewBoard r.1 demoBoardLoc = Some demoBoard ∧
  viewBoard (assignSide r.1 (onPositionPieceS r.1 r.2 D5) BLACK) demoBoardLoc
  = Some (setProp demoBoard D4 (mkPiece "R1" BLACK ROOK)).
Proof.
  split; [by_evaluation|]. split; [(vm_compute; reflexivity)|].
  vm_compute. repeat split; reflexivity.
Qed.

End Evaluation.


(** * Further properties of the engine *)

(** ** Keys and serialization *)



(** ** The king's square *)

Lemma find_ext_in {A} (f g : A → bool) (l : list A) :
  (∀ x, x ∈ l → f x = g x) → List.find f l = List.find g l.
Proof.
  induction l as [|x l IH]; intros E; simpl; [done|].
  rewrite (E x) by apply list_elem_of_here.
  destruct (g x); [done|]. apply IH. intros y Hy. apply E.
  by apply list_elem_of_further.
Qed.

Lemma getProp_not_key {V} (o : KeyedObject V) (key : string) :
  key ∉ Object_keys o → getProp o key = None.
Proof.
  induction o as [|[sq v] o IH]; [done|]. cbn.
  intros Hnot. destruct (String.eqb (squareKey sq) key) eqn:E.
  - apply String.eqb_eq in E. destruct Hnot. rewrite E. apply list_elem_of_here.
  - apply IH. intros Hin. apply Hnot. by apply list_elem_of_further.
Qed.

(** X3.  [kingPosition] is [undefined] exactly when no square of the
    board holds a piece named King of the side asked for. *)
Theorem kingPosition_undefined_iff_no_king (b : Chessboard) (kingSide : Side) :
  kingPosition kingSide b = None ↔
  ∀ sq p, onPositionPiece b sq = Some p → ¬ (name p = "King" ∧ side p = kingSide).
Proof.
  rewrite kingPosition_None. split; intros H sq p Hp.
  - specialize (H sq p Hp). unfold isKingOf in H.
    intros [Hn Hs]. rewrite Hn, Hs in H.
    by rewrite String.eqb_refl, bool_decide_eq_true_2 in H.
  - apply not_true_is_false. unfold isKingOf.
    intros [Hn%String.eqb_eq Hs%bool_decide_eq_true]%andb_prop.
    by apply (H sq p Hp).
Qed.

(** X4.  With several kings of one side on the board, [kingPosition]
    answers the one whose property comes first: a king under the first
    property is the answer, and any other first property is passed
    over. *)
Theorem kingPosition_first_in_property_order
    (b : Chessboard) (kingSide : Side) (sq : Square) (p : Piece) :
  squareKey sq ∉ Object_keys b →
  kingPosition kingSide ((sq, p) :: b)
  = if isKingOf kingSide p then Some sq else kingPosition kingSide b.
Proof.
  intros Hfresh. unfold kingPosition. cbn [Object_keys map fst List.find getProp].
  rewrite String.eqb_refl. fold (isKingOf kingSide p).
  destruct (isKingOf kingSide p); [apply keyToSquare_squareKey|].
  fold (Object_keys b).
  rewrite (find_ext_in _ (λ key, match getProp b key with
                                 | Some q => isKingOf kingSide q
                                 | None => false
                                 end)); [done|].
  intros key Hin. destruct (String.eqb (squareKey sq) key) eqn:E; [|done].
  apply String.eqb_eq in E. subst key. done.
Qed.

Lemma kingPosition_first_in_property_order_witness :
  (squareKey D4 ∉ Object_keys [(E1, whiteKing); (mkSquare CA R8, blackKing)]) ∧
  kingPosition WHITE twoKingsBoard = Some D4.
Proof.
  split; [by_evaluation|].
  apply (kingPosition_first_in_property_order
           [(E1, whiteKing); (mkSquare CA R8, blackKing)] WHITE D4
           (mkPiece "K3" WHITE KING)).
  by_evaluation.
Defined.

(** ** The board of the simulation *)

Section ProposedBoard.
Context `{PM : PieceMovement}.
Implicit Types (b v : Chessboard) (squareFrom squareTo sq k : Square) (p : Piece).

Lemma proposed_board_lookup b squareFrom squareTo p :
  onPositionPiece b squareFrom = Some p →
  ∃ v, returnWirtualProposedBoardAfterMove b squareFrom squareTo = Some v ∧
       v = movePiece (cloneDeep b) squareFrom squareTo ∧
       ∀ sq, onPositionPiece v sq
             = if bool_decide (sq = squareTo) then Some p
               else if bool_decide (sq = squareFrom) then None
               else onPositionPiece b sq.
Proof.
  intros Hp. eexists.
  split; [by eapply returnWirtualProposedBoardAfterMove_movePiece|]. split; [done|].
  intros sq. unfold movePiece, cloneDeep. rewrite Hp. unfold onPositionPiece.
  rewrite getProp_setProp, getProp_deleteProp.
  repeat case_bool_decide; congruence.
Qed.

(** X5.  The board [returnWirtualProposedBoardAfterMove] builds for a
    piece on [squareFrom] holds that piece on [squareTo], whatever stood
    there, holds nothing on [squareFrom] unless the two squares are the
    same, and holds on every other square what the live board holds. *)
Theorem returnWirtualProposedBoardAfterMove_occupancy b squareFrom squareTo p :
  onPositionPiece b squareFrom = Some p →
  ∃ v, returnWirtualProposedBoardAfterMove b squareFrom squareTo = Some v ∧
       onPositionPiece v squareTo = Some p ∧
       (squareFrom ≠ squareTo → onPositionPiece v squareFrom = None) ∧
       (∀ sq, sq ≠ squareFrom → sq ≠ squareTo →
              onPositionPiece v sq = onPositionPiece b sq).
Proof.
  intros Hp.
  destruct (proposed_board_lookup b squareFrom squareTo p Hp) as (v & Hv & _ & Hl).
  exists v. split; [done|]. split; [|split].
  - by rewrite Hl, bool_decide_eq_true_2.
  - intros Hne. rewrite Hl, bool_decide_eq_false_2, bool_decide_eq_true_2; done.
  - intros sq H1 H2. by rewrite Hl, !bool_decide_eq_false_2.
Qed.

Lemma kingPosition_onlyKingAt b kingSide k :
  onlyKingAt kingSide b k → kingPosition kingSide b = Some k.
Proof.
  intros [(q & Hq & Hking) Honly].
  destruct (kingPosition kingSide b) as [k'|] eqn:Hk.
  - f_equal. apply kingPosition_Some in Hk as (q' & Hq' & Hn & Hs).
    apply (Honly k' q' Hq'). unfold isKingOf.
    by rewrite Hn, String.eqb_refl, bool_decide_eq_true_2.
  - pose proof (proj1 (kingPosition_None b kingSide) Hk k q Hq). congruence.
Qed.

(** X6.  Where the king is looked for after a simulated move, on a board
    with one king of the side: on the destination when the king itself is
    the piece moved, nowhere when the piece moved lands on the king's
    square, and on the king's own square otherwise. *)
Theorem kingPosition_after_proposed_move b kingSide k squareFrom squareTo p :
  onlyKingAt kingSide b k →
  onPositionPiece b squareFrom = Some p →
  ∃ v, returnWirtualProposedBoardAfterMove b squareFrom squareTo = Some v ∧
       kingPosition kingSide v
       = if bool_decide (squareFrom = k) then Some squareTo
         else if bool_decide (squareTo = k) then None
         else Some k.
Proof.
  intros [(q & Hq & Hking) Honly] Hp.
  destruct (proposed_board_lookup b squareFrom squareTo p Hp) as (v & Hv & _ & Hl).
  exists v. split; [done|].
  assert (∀ sq q', sq ≠ squareTo → onPositionPiece v sq = Some q' →
                   isKingOf kingSide q' = true → sq = k ∧ sq ≠ squareFrom) as Hrest.
  { intros sq q' Hne. rewrite Hl, bool_decide_eq_false_2 by done.
    case_bool_decide; [done|]. intros Hq' Hk'. split; [|done]. by eapply Honly. }
  case_bool_decide as Hfrom.
  - subst k. assert (p = q) as -> by congruence.
    apply kingPosition_onlyKingAt. split.
    + exists q. by rewrite Hl, bool_decide_eq_true_2.
    + intros sq q' Hq' Hk'. destruct (decide (sq = squareTo)) as [|Hne]; [done|].
      by destruct (Hrest sq q' Hne Hq' Hk').
  - assert (isKingOf kingSide p = false) as Hnot.
    { apply not_true_is_false. intros Hk'. apply Hfrom. by eapply Honly. }
    case_bool_decide as Hto.
    + subst k. apply kingPosition_None. intros sq q' Hq'.
      apply not_true_is_false. intros Hk'.
      destruct (decide (sq = squareTo)) as [->|Hne].
      * rewrite Hl, bool_decide_eq_true_2 in Hq' by done. congruence.
      * destruct (Hrest sq q' Hne Hq' Hk'). done.
    + apply kingPosition_onlyKingAt. split.
      * exists q. rewrite Hl, !bool_decide_eq_false_2 by done. done.
      * intros sq q' Hq' Hk'. destruct (decide (sq = squareTo)) as [->|Hne].
        -- rewrite Hl, bool_decide_eq_true_2 in Hq' by done. congruence.
        -- by destruct (Hrest sq q' Hne Hq' Hk').
Qed.

End ProposedBoard.

(** ** The listing, further *)

Lemma List_filter_sublist {A} (g : A → bool) (l : list A) :
  sublist (List.filter g l) l.
Proof.
  induction l as [|x l IH]; simpl; [constructor|].
  destruct (g x); by constructor.
Qed.

Lemma List_filter_all {A} (g : A → bool) (l : list A) :
  (∀ x, x ∈ l → g x = true) → List.filter g l = l.
Proof.
  induction l as [|x l IH]; intros Hg; simpl; [done|].
  rewrite (Hg x) by apply list_elem_of_here. f_equal. apply IH.
  intros y Hy. apply Hg. by apply list_elem_of_further.
Qed.

Section ListingFurther.
Context `{PM : PieceMovement}.
Implicit Types (this : Engine) (position squareTo : Square) (piece : Piece).

Lemma isKingChecked_without_king (b : Chessboard) (kingSide : Side) :
  kingPosition kingSide b = None → isKingChecked b kingSide = false.
Proof.
  intros Hk. rewrite isKingChecked_existsb. apply not_true_is_false.
  intros (key & _ & Ha)%existsb_elem_of. unfold attacksKing in Ha.
  destruct (getProp b key); [|done]. destruct (keyToSquare key); [|done].
  apply andb_prop in Ha as [_ (c & _ & Hc)%existsb_elem_of].
  by rewrite Hk in Hc.
Qed.

(** X7.  The listing never throws and writes nothing, although
    [willBeKingChecked] throws for an empty source square: on an empty
    square it returns the empty list, and on an occupied one candidates of
    the piece in the order the piece gave them, none added, none twice as
    often. *)
Theorem ChessEngine_possibleMoves_never_throws this position :
  ∃ legal,
    ChessEngine_possibleMoves position this = (inr legal, this) ∧
    match onPositionPiece (board this) position with
    | Some piece => sublist legal (possibleMoves piece position (board this))
    | None =>
        legal = [] ∧
        ∀ squareTo, willBeKingChecked this position squareTo = inl TypeError
    end.
Proof.
  destruct (onPositionPiece (board this) position) as [piece|] eqn:Hp.
  - exists (survivors this position piece).
    split; [by apply ChessEngine_possibleMoves_occupied|].
    apply List_filter_sublist.
  - exists []. split; [by apply ChessEngine_possibleMoves_empty_square|].
    split; [done|]. intros squareTo. by apply willBeKingChecked_empty_square.
Qed.

(** X8.  On a board without a king of the side to move the listing filters
    nothing: it returns every candidate of the piece. *)
Theorem ChessEngine_possibleMoves_without_king this position piece :
  (∀ sq q, onPositionPiece (board this) sq = Some q →
           isKingOf (currentSide this) q = false) →
  onPositionPiece (board this) position = Some piece →
  ChessEngine_possibleMoves position this
  = (inr (possibleMoves piece position (board this)), this).
Proof.
  intros Hnone Hp. rewrite (ChessEngine_possibleMoves_occupied _ _ _ Hp).
  f_equal. f_equal. unfold survivors. apply List_filter_all.
  intros squareTo _. apply negb_true_iff, isKingChecked_without_king.
  destruct (proposed_board_lookup (board this) position squareTo piece Hp)
    as (v & _ & <- & Hl).
  apply kingPosition_None. intros sq q. rewrite Hl.
  case_bool_decide; [intros [= <-]; by eapply Hnone|].
  case_bool_decide; [done|]. apply Hnone.
Qed.

(** X9.  Every move the listing returns for a piece of the player to move
    is accepted by [move]. *)
Theorem listed_move_is_accepted this byPlayer squareFrom squareTo piece legal :
  onPositionPiece (board this) squareFrom = Some piece →
  player_side byPlayer = currentSide this →
  player_side byPlayer = side piece →
  (ChessEngine_possibleMoves squareFrom this).1 = inr legal →
  squareTo ∈ legal →
  ∃ events this', move byPlayer squareFrom squareTo this = (inr events, this').
Proof.
  intros Hp Hturn Hown. rewrite (ChessEngine_possibleMoves_occupied _ _ _ Hp).
  intros [= <-]. unfold survivors.
  intros [Hin _]%elem_of_List_filter.
  rewrite move_outcome, Hp.
  rewrite (bool_decide_eq_false_2 (_ ≠ currentSide this)) by (by intros []).
  rewrite (bool_decide_eq_false_2 (_ ≠ side piece)) by (by intros []).
  rewrite bool_decide_eq_true_2 by done. by eexists _, _.
Qed.

(** X10.  After a listed move is played, with [Chessboard.movePiece]
    relocating the piece as the simulation does, the piece stands on the
    destination and the king of the player who moved is not checked. *)
Theorem listed_move_leaves_king_safe this byPlayer squareFrom squareTo piece legal
    events this' :
  (ChessEngine_possibleMoves squareFrom this).1 = inr legal →
  squareTo ∈ legal →
  move byPlayer squareFrom squareTo this = (inr events, this') →
  onPositionPiece (board this) squareFrom = Some piece →
  onPositionPiece (board this') squareTo = Some piece ∧
  isKingChecked (board this') (player_side byPlayer) = false.
Proof.
  intros Hlist Hin Hmove Hp. revert Hlist Hin Hmove.
  rewrite (ChessEngine_possibleMoves_occupied _ _ _ Hp).
  intros [= <-]. unfold survivors.
  intros [_ Hsafe%negb_true_iff]%elem_of_List_filter.
  rewrite move_outcome, Hp.
  case_bool_decide as Hturn; [done|]. case_bool_decide; [done|].
  case_bool_decide; [|done]. intros [= _ <-]. cbn [board].
  destruct (proposed_board_lookup (board this) squareFrom squareTo piece Hp)
    as (v & _ & Hv & Hl).
  unfold cloneDeep in Hv, Hsafe. rewrite <- Hv in *. split.
  - by rewrite Hl, bool_decide_eq_true_2.
  - by rewrite Hturn.
Qed.

End ListingFurther.

(** ** The turn protocol, further *)

Lemma changeTurn_twice (s : Side) : changeTurn (changeTurn s) = s.
Proof. by destruct s. Qed.

Section TurnsFurther.
Context `{PM : PieceMovement}.
Implicit Types (this : Engine) (byPlayer : Player) (calls : list Call).

(** A call either throws and leaves the engine, or returns for the player
    to move and passes the turn. *)
Lemma move_cases byPlayer squareFrom squareTo this :
  (is_inr (move byPlayer squareFrom squareTo this).1 = false ∧
   (move byPlayer squareFrom squareTo this).2 = this) ∨
  (is_inr (move byPlayer squareFrom squareTo this).1 = true ∧
   player_side byPlayer = currentSide this ∧
   currentSide (move byPlayer squareFrom squareTo this).2
   = changeTurn (currentSide this)).
Proof.
  rewrite move_outcome.
  destruct (onPositionPiece (board this) squareFrom) as [p|]; [|by left].
  case_bool_decide as Hturn; [by left|]. case_bool_decide as Hown; [by left|].
  case_bool_decide; [|by left]. right. cbn. split; [done|]. split; [done|].
  congruence.
Qed.

(** X11.  The player who has just moved cannot move again: after a
    successful [move], every call for the same side throws, with
    [IllegalMove] on an empty source square and [OutOfTurn] otherwise, and
    leaves the engine as the first move left it. *)
Theorem no_second_move_by_same_side this byPlayer squareFrom squareTo events this' :
  move byPlayer squareFrom squareTo this = (inr events, this') →
  ∀ again squareFrom' squareTo',
    player_side again = player_side byPlayer →
    move again squareFrom' squareTo' this'
    = (inl (match onPositionPiece (board this') squareFrom' with
            | Some _ => OutOfTurn
            | None => IllegalMove
            end), this').
Proof.
  intros Hmove again squareFrom' squareTo' Hsame.
  destruct (move_cases byPlayer squareFrom squareTo this) as [[H _]|(_ & Hturn & Hflip)];
    rewrite Hmove in *; [done|]. cbn in Hflip.
  rewrite move_outcome.
  destruct (onPositionPiece (board this') squareFrom') as [p|]; [|done].
  rewrite bool_decide_eq_true_2; [done|].
  rewrite Hsame, Hflip, Hturn. intros E. symmetry in E. by apply changeTurn_flips in E.
Qed.

(** X12.  In any run of calls on one engine the calls that return are made
    for alternating sides, beginning with the side to move; the side to
    move at the end is the first one after an even number of returns and
    the other one after an odd number; and every call has its outcome. *)
Theorem moveAll_alternates calls this :
  successfulMovers calls this
  = turns (currentSide this) (length (successfulMovers calls this)) ∧
  currentSide (moveAll calls this).2
  = (if Nat.even (length (successfulMovers calls this))
     then currentSide this else changeTurn (currentSide this)) ∧
  length (moveAll calls this).1 = length calls.
Proof.
  revert this. induction calls as [|[[byPlayer squareFrom] squareTo] calls IH];
    intros this; [done|].
  cbn [moveAll successfulMovers].
  pose proof (move_cases byPlayer squareFrom squareTo this) as Hcase.
  destruct (move byPlayer squareFrom squareTo this) as [outcome that].
  specialize (IH that). destruct (moveAll calls that) as [outcomes final].
  cbn [fst snd] in *. destruct IH as (IH1 & IH2 & IH3).
  destruct Hcase as [[-> ->]|(-> & Hturn & Hflip)].
  - split; [done|]. split; [done|]. cbn. by rewrite IH3.
  - cbn [length turns]. rewrite Hturn, <- Hflip, <- IH1. split; [done|].
    split; [|cbn; by rewrite IH3].
    rewrite IH2, Hflip, changeTurn_twice, Nat.even_succ, <- Nat.negb_even.
    by destruct (Nat.even _).
Qed.

End TurnsFurther.

(** ** The store, further *)

Section StoreFurther.
Context `{PM : PieceMovement}.
Implicit Types (σ : gmap loc Obj) (this : EngineS) (b : Chessboard).

(** X13.  The listing on a store of objects leaves every object that
    existed before the call as it was, the live board and its pieces among
    them, and returns what the listing returns on the board the live
    board reads as. *)
Theorem possibleMovesS_leaves_objects σ this b position σ' r :
  viewBoard σ (boardS this) = Some b →
  possibleMovesS σ this position = (σ', r) →
  (∀ l o, σ !! l = Some o → σ' !! l = Some o) ∧
  viewBoard σ' (boardS this) = Some b ∧
  r = (ChessEngine_possibleMoves position (mkEngine b (currentSideS this))).1.
Proof.
  intros Hv Hcall.
  destruct (possibleMovesS_refines _ _ _ _ _ _ Hv Hcall) as (Hsub & _ & Hv' & Hr).
  split; [|done]. intros l o Hl. by eapply lookup_weaken.
Qed.

(** X14.  On the board built for the simulation every piece but the one
    on the destination is a new object: no reference of the live board, and
    no object of before the call, is among them. *)
Theorem proposed_board_other_pieces_new σ chessboard b squareFrom squareTo σ' w sq l :
  viewBoard σ chessboard = Some b →
  returnWirtualProposedBoardAfterMoveS σ chessboard squareFrom squareTo = (σ', w) →
  sq ≠ squareTo →
  onPositionPieceS σ' w sq = Some l →
  σ !! l = None ∧ ∀ sq', onPositionPieceS σ chessboard sq' ≠ Some l.
Proof.
  intros Hv Hr Hne Hl.
  assert (σ !! l = None) as Hnew.
  { revert Hr Hl. unfold returnWirtualProposedBoardAfterMoveS.
    destruct (cloneDeepS σ chessboard) as [σ1 w1] eqn:Hc. intros [= <- <-].
    destruct (cloneDeepS_view _ _ _ _ _ Hv Hc) as (_ & _ & props' & Hw & _ & Hfresh).
    assert (∀ f g, updateProps (updateProps σ1 w1 f) w1 g
                   = <[w1 := ChessboardObj (g (f props'))]> σ1) as ->.
    { intros f g. unfold updateProps.
      by rewrite Hw, lookup_insert_eq, insert_insert_eq. }
    unfold onPositionPieceS, squaresWithPieceS.
    rewrite lookup_insert_eq, getProp_setProp, getProp_deleteProp.
    rewrite bool_decide_eq_false_2 by done.
    case_bool_decide; [done|].
    destruct (getProp props' (squareKey sq)) as [[l'|]|] eqn:Hg; try done.
    intros [= <-]. by eapply Hfresh. }
  split; [done|]. intros sq' Hold.
  unfold viewBoard in Hv. unfold onPositionPieceS, squaresWithPieceS in Hold.
  destruct (σ !! chessboard) as [[?|props]|]; try done.
  pose proof (viewProps_getProp _ _ _ (squareKey sq') Hv) as Hd.
  rewrite Hold in Hd. unfold derefPiece in Hd. cbn in Hd. rewrite Hnew in Hd.
  destruct (getProp props (squareKey sq')) as [[l'|]|] eqn:Hg; try done.
  cbn in Hold. injection Hold as ->.
  clear Hd. revert Hg. clear -Hv Hnew. revert b Hv.
  induction props as [|[s v] props IH]; intros b; cbn; [done|].
  destruct (derefPiece σ v) as [q|] eqn:Hq; [|done]. cbn.
  destruct (viewProps σ props) as [rest|]; [|done]. intros _.
  destruct (String.eqb _ _); [|by eapply IH].
  intros [= ->]. unfold derefPiece in Hq. cbn in Hq. by rewrite Hnew in Hq.
Qed.

(** X15.  The piece on the destination of the simulation's board is no
    copy: it is the object the live board holds on the source square. *)
Theorem proposed_board_moved_piece_shared σ chessboard b squareFrom squareTo σ' w p :
  viewBoard σ chessboard = Some b →
  onPositionPiece b squareFrom = Some p →
  returnWirtualProposedBoardAfterMoveS σ chessboard squareFrom squareTo = (σ', w) →
  ∃ l, onPositionPieceS σ' w squareTo = Some l ∧
       onPositionPieceS σ chessboard squareFrom = Some l ∧
       σ !! l = Some (PieceObj p) ∧ σ' !! l = Some (PieceObj p).
Proof.
  intros Hv Hp Hr.
  destruct (returnWirtualProposedBoardAfterMoveS_shares _ _ _ _ _ _ _ _ Hv Hp Hr)
    as (l & H1 & H2 & H3).
  destruct (returnWirtualProposedBoardAfterMoveS_view _ _ _ _ _ _ _ Hv Hr) as (Hsub & _).
  exists l. repeat split; try done. by eapply lookup_weaken.
Qed.

(** X16.  [willBeKingChecked] for an empty source square throws: the
    board it builds holds [undefined] under the destination, and the scan
    for the check reads a property of it.  The objects of before the call
    are as they were. *)
Theorem willBeKingCheckedS_empty_source_throws σ this b squareFrom squareTo :
  viewBoard σ (boardS this) = Some b →
  onPositionPiece b squareFrom = None →
  (willBeKingCheckedS σ this squareFrom squareTo).2 = inl TypeError ∧
  onPositionPieceS (willBeKingCheckedS σ this squareFrom squareTo).1
    (returnWirtualProposedBoardAfterMoveS σ (boardS this) squareFrom squareTo).2
    squareTo = None ∧
  σ ⊆ (willBeKingCheckedS σ this squareFrom squareTo).1.
Proof.
  intros Hv Hp.
  destruct (willBeKingCheckedS σ this squareFrom squareTo) as [σ' r] eqn:Hw.
  destruct (willBeKingCheckedS_refines _ _ _ _ _ _ _ Hv Hw) as [Hsub ->].
  cbn [fst snd]. split; [by apply willBeKingChecked_empty_square|]. split; [|done].
  revert Hw. unfold willBeKingCheckedS.
  destruct (returnWirtualProposedBoardAfterMoveS σ (boardS this) squareFrom squareTo)
    as [σ1 w] eqn:Hr.
  destruct (returnWirtualProposedBoardAfterMoveS_view _ _ _ _ _ _ _ Hv Hr)
    as (_ & _ & _ & Hshare).
  assert (σ' = σ1 → onPositionPieceS σ' w squareTo = None) as Hgoal.
  { intros ->. rewrite Hshare. unfold viewBoard in Hv.
    unfold onPositionPieceS, squaresWithPieceS.
    destruct (σ !! boardS this) as [[?|props]|]; try done.
    pose proof (viewProps_getProp _ _ _ (squareKey squareFrom) Hv) as Hd.
    unfold onPositionPiece in Hp. rewrite Hp in Hd.
    destruct (getProp props (squareKey squareFrom)) as [[l|]|] eqn:Hg; try done.
    exfalso. clear Hd. revert Hg Hp. clear -Hv. revert b Hv.
    induction props as [|[s v] props IH]; intros b; cbn; [done|].
    destruct (derefPiece σ v) as [q|] eqn:Hq; [|done]. cbn.
    destruct (viewProps σ props) as [rest|] eqn:Hrest; [|done]. intros [= <-]. cbn.
    destruct (String.eqb _ _); [done|]. by eapply IH. }
  cbn [snd]. destruct (viewBoard σ1 w); intros [= <- _]; by apply Hgoal.
Qed.

End StoreFurther.

(** ** Check detection, further *)

Section CheckFurther.
Context `{PM : PieceMovement}.

(** X17.  A side is not checked on a board that holds no piece of the
    other side, the empty board among them: only pieces of the other side
    are asked for their destinations. *)
Theorem isKingChecked_without_enemy (b : Chessboard) (kingSide : Side) :
  (∀ sq p, onPositionPiece b sq = Some p → side p = kingSide) →
  isKingChecked b kingSide = false.
Proof.
  intros Hown. rewrite isKingChecked_existsb. apply not_true_is_false.
  intros (key & Hin & Ha)%existsb_elem_of.
  apply keys_squareKey in Hin as (sq & -> & _).
  unfold attacksKing in Ha.
  destruct (getProp b (squareKey sq)) as [p|] eqn:Hp; [|done].
  destruct (keyToSquare (squareKey sq)); [|done].
  apply andb_prop in Ha as [Hs%bool_decide_eq_true _].
  by apply Hs, (Hown sq).
Qed.

End CheckFurther.

(** ** The further properties on a position *)

Ltac by_cases_on_square sq :=
  let q := fresh "q" in
  let Hq := fresh "Hq" in
  intros sq q Hq;
  destruct sq as [[] []]; vm_compute in Hq;
  first [discriminate Hq | injection Hq as <-].

Section EvaluationFurther.
#[local] Existing Instance specPossibleMoves.

Lemma demoBoard_onlyKingAt : onlyKingAt WHITE demoBoard E1.
Proof.
  split; [exists whiteKing; split; vm_compute; reflexivity|].
  by_cases_on_square sq; intros Hk; vm_compute in Hk;
    first [discriminate Hk | reflexivity].
Qed.

(** The rook's capture on D7: the rook stands there, D4 is empty, and the
    king is where it was. *)
Lemma returnWirtualProposedBoardAfterMove_occupancy_witness :
  onPositionPiece demoBoard D4 = Some whiteRook ∧
  ∃ v, returnWirtualProposedBoardAfterMove demoBoard D4 D7 = Some v ∧
       onPositionPiece v D7 = Some whiteRook ∧
       onPositionPiece v D4 = None ∧
       onPositionPiece v E1 = Some whiteKing.
Proof.
  split; [vm_compute; reflexivity|].
  destruct (returnWirtualProposedBoardAfterMove_occupancy demoBoard D4 D7 whiteRook)
    as (v & Hv & Hto & Hfrom & Hrest); [vm_compute; reflexivity|].
  exists v. split; [exact Hv|]. split; [exact Hto|].
  split; [apply Hfrom; discriminate|].
  rewrite Hrest by discriminate. vm_compute; reflexivity.
Defined.

(** The king's step to D1 is tested on D1, the knight's move on E1. *)
Lemma kingPosition_after_proposed_move_witness :
  onlyKingAt WHITE demoBoard E1 ∧
  onPositionPiece demoBoard E1 = Some whiteKing ∧
  (∃ v, returnWirtualProposedBoardAfterMove demoBoard E1 (mkSquare CD R1) = Some v ∧
        kingPosition WHITE v = Some (mkSquare CD R1)) ∧
  (∃ v, returnWirtualProposedBoardAfterMove demoBoard E2 C3 = Some v ∧
        kingPosition WHITE v = Some E1).
Proof.
  split; [exact demoBoard_onlyKingAt|]. split; [vm_compute; reflexivity|]. split.
  - exact (kingPosition_after_proposed_move demoBoard WHITE E1 E1 (mkSquare CD R1)
             whiteKing demoBoard_onlyKingAt eq_refl).
  - exact (kingPosition_after_proposed_move demoBoard WHITE E1 E2 C3
             whiteKnight demoBoard_onlyKingAt eq_refl).
Defined.

(** Without the white king the pinned knight has all its five moves. *)
Lemma ChessEngine_possibleMoves_without_king_witness :
  onPositionPiece kinglessBoard E2 = Some whiteKnight ∧
  ChessEngine_possibleMoves E2 (newEngine kinglessBoard)
  = (inr (possibleMoves whiteKnight E2 kinglessBoard), newEngine kinglessBoard) ∧
  length (possibleMoves whiteKnight E2 kinglessBoard) = 5%nat.
Proof.
  split; [vm_compute; reflexivity|]. split; [|vm_compute; reflexivity].
  apply (ChessEngine_possibleMoves_without_king (newEngine kinglessBoard) E2 whiteKnight);
    [|vm_compute; reflexivity].
  by_cases_on_square sq; vm_compute; reflexivity.
Defined.

(** The rook's listed step to D5 is accepted, and leaves the white king
    unchecked. *)
Lemma listed_move_is_accepted_witness :
  onPositionPiece (board demoEngine) D4 = Some whiteRook ∧
  D5 ∈ survivors demoEngine D4 whiteRook ∧
  ∃ events this', move (mkPlayer WHITE) D4 D5 demoEngine = (inr events, this').
Proof.
  split; [vm_compute; reflexivity|]. split; [by_evaluation|].
  apply (listed_move_is_accepted demoEngine (mkPlayer WHITE) D4 D5 whiteRook
           (survivors demoEngine D4 whiteRook));
    [vm_compute; reflexivity..|by_evaluation].
Defined.

Lemma listed_move_leaves_king_safe_witness :
  D5 ∈ survivors demoEngine D4 whiteRook ∧
  onPositionPiece (board (move (mkPlayer WHITE) D4 D5 demoEngine).2) D5 = Some whiteRook ∧
  isKingChecked (board (move (mkPlayer WHITE) D4 D5 demoEngine).2) WHITE = false.
Proof.
  split; [by_evaluation|].
  apply (listed_move_leaves_king_safe demoEngine (mkPlayer WHITE) D4 D5 whiteRook
           (survivors demoEngine D4 whiteRook)
           [Moved (mkPieceWasMoved whiteRook D4 D5)]);
    [vm_compute; reflexivity|by_evaluation|vm_compute; reflexivity..].
Defined.

(** After the rook's step white may not move the knight. *)
Lemma no_second_move_by_same_side_witness :
  is_inr (move (mkPlayer WHITE) D4 D5 demoEngine).1 = true ∧
  (move (mkPlayer WHITE) E2 C3 (move (mkPlayer WHITE) D4 D5 demoEngine).2).1
  = inl OutOfTurn.
Proof.
  split; [vm_compute; reflexivity|].
  assert (move (mkPlayer WHITE) D4 D5 demoEngine
          = (inr [Moved (mkPieceWasMoved whiteRook D4 D5)],
             (move (mkPlayer WHITE) D4 D5 demoEngine).2)) as Hfirst
    by (vm_compute; reflexivity).
  rewrite (no_second_move_by_same_side demoEngine (mkPlayer WHITE) D4 D5 _ _ Hfirst
             (mkPlayer WHITE) E2 C3 eq_refl).
  vm_compute; reflexivity.
Defined.

(** The listing for the rook on the store of the position. *)
Lemma possibleMovesS_leaves_objects_witness :
  viewBoard demoStore (boardS demoEngineS) = Some demoBoard ∧
  viewBoard (possibleMovesS demoStore demoEngineS D4).1 (boardS demoEngineS)
  = Some demoBoard ∧
  (possibleMovesS demoStore demoEngineS D4).2
  = inr (survivors demoEngine D4 whiteRook).
Proof.
  split; [vm_compute; reflexivity|].
  destruct (possibleMovesS_leaves_objects demoStore demoEngineS demoBoard D4
              (possibleMovesS demoStore demoEngineS D4).1
              (possibleMovesS demoStore demoEngineS D4).2)
    as (_ & Hview & Hr);
    [vm_compute; reflexivity|apply surjective_pairing|].
  split; [exact Hview|]. rewrite Hr. vm_compute; reflexivity.
Defined.

(** On the board simulating the rook's step to D5 the king is the new
    object 8, the rook the live board's object 3. *)
Lemma proposed_board_other_pieces_new_witness :
  viewBoard demoStore demoBoardLoc = Some demoBoard ∧
  onPositionPieceS (returnWirtualProposedBoardAfterMoveS demoStore demoBoardLoc D4 D5).1
    (returnWirtualProposedBoardAfterMoveS demoStore demoBoardLoc D4 D5).2 E1 = Some 8 ∧
  demoStore !! 8 = None.
Proof.
  split; [vm_compute; reflexivity|]. split; [vm_compute; reflexivity|].
  apply (proposed_board_other_pieces_new demoStore demoBoardLoc demoBoard D4 D5
           (returnWirtualProposedBoardAfterMoveS demoStore demoBoardLoc D4 D5).1
           (returnWirtualProposedBoardAfterMoveS demoStore demoBoardLoc D4 D5).2 E1 8);
    [vm_compute; reflexivity|apply surjective_pairing|discriminate
    |vm_compute; reflexivity].
Defined.

Lemma proposed_board_moved_piece_shared_witness :
  viewBoard demoStore demoBoardLoc = Some demoBoard ∧
  onPositionPiece demoBoard D4 = Some whiteRook ∧
  ∃ l, onPositionPieceS
         (returnWirtualProposedBoardAfterMoveS demoStore demoBoardLoc D4 D5).1
         (returnWirtualProposedBoardAfterMoveS demoStore demoBoardLoc D4 D5).2 D5
       = Some l ∧
       onPositionPieceS demoStore demoBoardLoc D4 = Some l.
Proof.
  split; [vm_compute; reflexivity|]. split; [vm_compute; reflexivity|].
  destruct (proposed_board_moved_piece_shared demoStore demoBoardLoc demoBoard D4 D5
              (returnWirtualProposedBoardAfterMoveS demoStore demoBoardLoc D4 D5).1
              (returnWirtualProposedBoardAfterMoveS demoStore demoBoardLoc D4 D5).2
              whiteRook)
    as (l & H1 & H2 & _);
    [vm_compute; reflexivity|vm_compute; reflexivity|apply surjective_pairing|].
  exists l. split; [exact H1|exact H2].
Defined.

(** There is nothing on D5 to move to D6. *)
Lemma willBeKingCheckedS_empty_source_throws_witness :
  viewBoard demoStore (boardS demoEngineS) = Some demoBoard ∧
  onPositionPiece demoBoard D5 = None ∧
  (willBeKingCheckedS demoStore demoEngineS D5 D6).2 = inl TypeError.
Proof.
  split; [vm_compute; reflexivity|]. split; [vm_compute; reflexivity|].
  apply (willBeKingCheckedS_empty_source_throws demoStore demoEngineS demoBoard D5 D6);
    vm_compute; reflexivity.
Defined.

(** White alone on the board is not checked, and nobody is on the empty
    board. *)
Lemma isKingChecked_without_enemy_witness :
  isKingChecked [(E1, whiteKing); (E2, whiteKnight)] WHITE = false ∧
  isKingChecked [] WHITE = false.
Proof.
  split.
  - apply (isKingChecked_without_enemy [(E1, whiteKing); (E2, whiteKnight)] WHITE).
    by_cases_on_square sq; vm_compute; reflexivity.
  - apply (isKingChecked_without_enemy [] WHITE).
    by_cases_on_square sq.
Defined.

End EvaluationFurther.

(** ** Check detection on a position *)

(** C2.  On the position with the rook on E8 facing the king on E1, the
    king's square is among the rook's destinations and [kingPosition]
    finds it, yet [isKingChecked] answers false when the rook's generator
    builds its squares as [{ row, column }]: the serializations differ.
    [canMoveOnSquare], which compares column and row, accepts the same
    destination; and with squares built as [{ column, row }] the answer is
    true. *)
Theorem isKingChecked_misses_row_first_destination :
  onPositionPiece checkBoard E8 = Some blackRook ∧
  side blackRook ≠ WHITE ∧
  kingPosition WHITE checkBoard = Some E1 ∧
  E1 ∈ possibleMoves (PM := rowFirstPossibleMoves) blackRook E8 checkBoard ∧
  mkSquareObject E1 [RowField; ColumnField]
    ∈ PieceMovement_possibleMoves (PieceMovement := rowFirstPossibleMoves)
        blackRook E8 checkBoard ∧
  isKingChecked (PM := rowFirstPossibleMoves) checkBoard WHITE = false ∧
  (canMoveOnSquare (PM := rowFirstPossibleMoves) E8 E1 (mkEngine checkBoard BLACK)).1
  = inr true ∧
  isKingChecked (PM := specPossibleMoves) checkBoard WHITE = true.
Proof.
  split; [vm_compute; reflexivity|]. split; [discriminate|].
  split; [vm_compute; reflexivity|].
  split; [apply list_elem_of_In; vm_compute; tauto|].
  split; [apply list_elem_of_In; vm_compute; tauto|].
  repeat split; vm_compute; reflexivity.
Qed.

(** With generators that build [{ column, row }], the rook on E8 checks
    the king on E1. *)
Lemma isKingChecked_iff_serialized_king_generated_witness :
  (∀ sq p o, o ∈ PieceMovement_possibleMoves (PieceMovement := specPossibleMoves)
                   p sq checkBoard →
             o = squareLiteral (squareOf o)) ∧
  E1 ∈ possibleMoves (PM := specPossibleMoves) blackRook E8 checkBoard ∧
  isKingChecked (PM := specPossibleMoves) checkBoard WHITE = true.
Proof.
  assert (∀ sq p o, o ∈ PieceMovement_possibleMoves (PieceMovement := specPossibleMoves)
                          p sq checkBoard →
                    o = squareLiteral (squareOf o)) as Hliteral.
  { intros sq p o (x & -> & _)%list_elem_of_fmap. reflexivity. }
  assert (E1 ∈ possibleMoves (PM := specPossibleMoves) blackRook E8 checkBoard) as Hin
    by (apply list_elem_of_In; vm_compute; tauto).
  split; [exact Hliteral|]. split; [exact Hin|].
  apply (isKingChecked_iff_serialized_king_generated
           (PM := specPossibleMoves) checkBoard WHITE); [exact Hliteral|].
  exists E8, blackRook, E1.
  split; [vm_compute; reflexivity|]. split; [discriminate|].
  split; [vm_compute; reflexivity|exact Hin].
Defined.
